(** * UDP frame fragmentation and reassembly (sender.py, receiver.py)

    A shallow embedding of the packetizer of [send_video] and of the frame
    reassembler of [VideoReceiver], with the properties of the protocol
    proved about them.

    Python integers are unbounded: they are modelled by [Z].  A [bytes]
    value is a [list byte].  The two dictionaries of the receiver are finite
    maps ([gmap]); the exceptions the code can raise are values of [Exn]. *)

From Stdlib Require Import ZArith Lia List.
From Stdlib Require Import Strings.Byte.
From stdpp Require Import base option list list_numbers gmap fin_maps fin_sets.

Local Open Scope Z_scope.

(** ** Bytes, slices and the [struct] header format *)

Abbreviation bytes := (list byte).

#[global] Instance byte_eq_decision : EqDecision byte := Byte.byte_eq_dec.

(** [len(b)] *)
Definition len {A} (l : list A) : Z := Z.of_nat (length l).

(** [range(n)]: empty when [n <= 0]. *)
Definition range (n : Z) : list Z := seqZ 0 n.

(** [data[i:j]] for arbitrary Python integers [i] and [j]: a negative index
    counts from the end, and both are clamped to [0 .. len(data)]. *)
Definition slice_index {A} (l : list A) (k : Z) : Z :=
  if k <? 0 then Z.max 0 (k + len l) else Z.min k (len l).

Definition py_slice {A} (l : list A) (i j : Z) : list A :=
  let a := slice_index l i in
  let b := slice_index l j in
  take (Z.to_nat (b - a)) (drop (Z.to_nat a) l).

Module Struct.

(** The bound of the [I] format: an unsigned 32-bit integer. *)
Definition U32_LIMIT : Z := 4294967296.

Definition is_u32 (z : Z) : bool := (0 <=? z) && (z <? U32_LIMIT).

Definition byte_of_Z (z : Z) : byte :=
  default x00 (Byte.of_N (Z.to_N (z mod 256))).

Definition Z_of_byte (b : byte) : Z := Z.of_N (Byte.to_N b).

(** One [>I] field: four bytes, most significant first. *)
Definition be32 (z : Z) : bytes :=
  [ byte_of_Z (z / 16777216); byte_of_Z (z / 65536);
    byte_of_Z (z / 256); byte_of_Z z ].

Definition of_be32 (b0 b1 b2 b3 : byte) : Z :=
  ((Z_of_byte b0 * 256 + Z_of_byte b1) * 256 + Z_of_byte b2) * 256
  + Z_of_byte b3.

(** [struct.pack('>III', a, b, c)]; [None] stands for [struct.error],
    raised when a field is not an unsigned 32-bit integer. *)
Definition pack_III (a b c : Z) : option bytes :=
  if is_u32 a && is_u32 b && is_u32 c
  then Some (be32 a ++ be32 b ++ be32 c)
  else None.

(** [struct.unpack('>III', header)]; [None] stands for [struct.error],
    raised when the buffer is not exactly twelve bytes long. *)
Definition unpack_III (header : bytes) : option (Z * Z * Z) :=
  match header with
  | [a0; a1; a2; a3; b0; b1; b2; b3; c0; c1; c2; c3] =>
      Some (of_be32 a0 a1 a2 a3, of_be32 b0 b1 b2 b3, of_be32 c0 c1 c2 c3)
  | _ => None
  end.

End Struct.

(** ** Module constants (the same in sender.py and receiver.py) *)

Definition MAX_UDP_SIZE : Z := 1400.
Definition HEADER_SIZE : Z := 12.
Definition FRAME_BUFFER_SIZE : Z := 5.

(** ** Exceptions *)

Inductive Exn : Type :=
  | KeyError (key : Z)
  | StructError
  | ZeroDivisionError.

(** ** The packetizer: the body of the frame loop of [send_video]

    The two module constants [MAX_UDP_SIZE] and [HEADER_SIZE] are taken as
    the parameters [max_packet_size] and [header_size]; [send_frame] below
    instantiates them with the constants of the source. *)

Module Sender.

(** [(len(data) + MAX_UDP_SIZE - HEADER_SIZE - 1) // (MAX_UDP_SIZE - HEADER_SIZE)];
    Python's [//] rounds towards minus infinity, as [Z.div] does, and
    raises on a zero divisor. *)
Definition total_packets_of (max_packet_size header_size : Z) (data : bytes)
  : option Z :=
  if max_packet_size - header_size =? 0 then None
  else Some ((len data + max_packet_size - header_size - 1)
             / (max_packet_size - header_size)).

(** The chunk of one iteration:
    [start = packet_num * (MAX_UDP_SIZE - HEADER_SIZE)],
    [end = min(start + (MAX_UDP_SIZE - HEADER_SIZE), len(data))],
    [chunk = data[start:end]]. *)
Definition chunk_of (max_packet_size header_size : Z) (data : bytes)
    (packet_num : Z) : bytes :=
  let start := packet_num * (max_packet_size - header_size) in
  let end_ := Z.min (start + (max_packet_size - header_size)) (len data) in
  py_slice data start end_.

(** The result of sending one frame: the datagrams handed to [sendto], in
    order, and the exception that ended the loop early, if any. *)
Record Sent : Type := mkSent { datagrams : list bytes; failure : option Exn }.

(** [for packet_num in range(total_packets): ...].  A [struct.error] of
    [pack] is not caught inside the loop: it leaves it. *)
Fixpoint send_loop (max_packet_size header_size : Z) (frame_number : Z)
    (total_packets : Z) (data : bytes) (packet_nums : list Z) : Sent :=
  match packet_nums with
  | [] => mkSent [] None
  | packet_num :: rest =>
      let chunk := chunk_of max_packet_size header_size data packet_num in
      match Struct.pack_III frame_number packet_num total_packets with
      | None => mkSent [] (Some StructError)
      | Some header =>
          let r := send_loop max_packet_size header_size frame_number
                     total_packets data rest in
          mkSent ((header ++ chunk) :: datagrams r) (failure r)
      end
  end.

(** [split]: the packets of one frame. *)
Definition split (max_packet_size header_size : Z) (frame_number : Z)
    (data : bytes) : Sent :=
  match total_packets_of max_packet_size header_size data with
  | None => mkSent [] (Some ZeroDivisionError)
  | Some total_packets =>
      send_loop max_packet_size header_size frame_number total_packets data
        (range total_packets)
  end.

(** The header and the chunk of packet [i] as the wire format words them:
    three big-endian fields, and the [i]-th run of [chunk_size] bytes. *)
Definition header_of (frame_number i total_packets : Z) : bytes :=
  Struct.be32 frame_number ++ Struct.be32 i ++ Struct.be32 total_packets.

Definition nth_chunk (chunk_size : Z) (data : bytes) (i : Z) : bytes :=
  take (Z.to_nat chunk_size) (drop (Z.to_nat (i * chunk_size)) data).

(** The frame loop body of [send_video], with the constants of the file. *)
Definition send_frame (frame_number : Z) (data : bytes) : Sent :=
  split MAX_UDP_SIZE HEADER_SIZE frame_number data.

End Sender.

(** ** The frame reassembler: [VideoReceiver] *)

Module Receiver.

(** The reassembly state set up by [_setup_frame_buffers]:
    [frame_buffers] (a [defaultdict(dict)]), [frame_total_packets] and the
    cursor [current_frame]. *)
Record State : Type := mkState {
  frame_buffers : gmap Z (gmap Z bytes);
  frame_total_packets : gmap Z Z;
  current_frame : Z
}.

Inductive Level : Type := DEBUG | INFO | WARNING | ERROR.

(** The messages handed to [logger]. *)
Inductive Message : Type :=
  | PacketTooSmall (size : Z)
  | StartOfFrame (frame_number total_packets : Z)
  | EndOfFrame (frame_number packet_num total_packets : Z)
  | UnpackFailed (size : Z)
  | NoTotalCount (frame : Z)
  | FrameIncomplete (frame have total_packets : Z) (missing : gset Z)
  | ProcessingComplete (frame size : Z)
  | CheckSocketError (e : Exn).

(** What the reassembler does to the outside: a reassembled payload handed
    to the consumer [process_frame] (tagged with the value of
    [current_frame] at the call), or a log record.  [process_frame] catches
    every exception of its own, so it never raises into the loop. *)
Inductive Event : Type :=
  | ProcessFrame (frame : Z) (frame_data : bytes)
  | Log (level : Level) (msg : Message).

(** The outcome of a method: what it did, the state it left, and the
    exception that left it, if any. *)
Record Run : Type := mkRun {
  events : list Event;
  state : State;
  raised : option Exn
}.

Definition before (evs : list Event) (r : Run) : Run :=
  mkRun (evs ++ events r) (state r) (raised r).

(** The payloads handed to the consumer, in order. *)
Fixpoint emitted (evs : list Event) : list (Z * bytes) :=
  match evs with
  | [] => []
  | ProcessFrame f d :: rest => (f, d) :: emitted rest
  | Log _ _ :: rest => emitted rest
  end.

(** [_setup_frame_buffers], with the initial cursor as a parameter. *)
Definition fresh_at (cursor : Z) : State := mkState ∅ ∅ cursor.
Definition _setup_frame_buffers : State := fresh_at 0.

(** [_is_frame_complete] *)
Definition _is_frame_complete (cur : Z) (frame_packets : gmap Z bytes)
    (total_packets : Z) : bool * list Event :=
  if bool_decide (Z.of_nat (size frame_packets) ≠ total_packets) then
    let missing : gset Z :=
      list_to_set (range total_packets) ∖ dom frame_packets in
    (false, [Log INFO (FrameIncomplete cur (Z.of_nat (size frame_packets))
                         total_packets missing)])
  else (true, []).

(** [for i in range(total_packets): frame_data += frame_packets[i]] *)
Fixpoint concat_packets (frame_packets : gmap Z bytes) (indices : list Z)
    (frame_data : bytes) : Exn + bytes :=
  match indices with
  | [] => inr frame_data
  | i :: rest =>
      match frame_packets !! i with
      | None => inl (KeyError i)
      | Some chunk => concat_packets frame_packets rest (frame_data ++ chunk)
      end
  end.

(** [_reassemble_frame] *)
Definition _reassemble_frame (cur : Z) (frame_packets : gmap Z bytes)
    (total_packets : Z) : Exn + (bytes * list Event) :=
  match concat_packets frame_packets (range total_packets) [] with
  | inl e => inl e
  | inr frame_data =>
      inr (frame_data, [Log INFO (ProcessingComplete cur (len frame_data))])
  end.

(** [for f in old_frames: del frame_buffers[f]; if f in
    frame_total_packets: del frame_total_packets[f]].  The [DEBUG] record
    of each turn is below the level of the logger. *)
Definition drop_old_frames (old_frames : list Z)
    (fb : gmap Z (gmap Z bytes)) (ftp : gmap Z Z)
  : gmap Z (gmap Z bytes) * gmap Z Z :=
  foldl (λ acc f, (delete f acc.1, delete f acc.2)) (fb, ftp) old_frames.

(** [_cleanup_processed_frame]; [del] raises [KeyError] on an absent key. *)
Definition _cleanup_processed_frame (s : State) : State * option Exn :=
  let cur := current_frame s in
  match frame_buffers s !! cur with
  | None => (s, Some (KeyError cur))
  | Some _ =>
      let fb := delete cur (frame_buffers s) in
      match frame_total_packets s !! cur with
      | None => (mkState fb (frame_total_packets s) cur, Some (KeyError cur))
      | Some _ =>
          let ftp := delete cur (frame_total_packets s) in
          let cur' := cur + 1 in
          let old_frames :=
            filter (λ f, f < cur' - FRAME_BUFFER_SIZE) (elements (dom fb)) in
          let '(fb', ftp') := drop_old_frames old_frames fb ftp in
          (mkState fb' ftp' cur', None)
      end
  end.

(** [process_complete_frames]: the [while] loop, with one unit of fuel per
    turn. *)
Fixpoint process_complete_frames_loop (fuel : nat) (s : State) : option Run :=
  match fuel with
  | O => None
  | S fuel' =>
      let cur := current_frame s in
      match frame_buffers s !! cur with
      | None => Some (mkRun [] s None)
      | Some frame_packets =>
          match frame_total_packets s !! cur with
          | None => Some (mkRun [Log WARNING (NoTotalCount cur)] s None)
          | Some total_packets =>
              let '(complete, ev1) :=
                _is_frame_complete cur frame_packets total_packets in
              if complete then
                match _reassemble_frame cur frame_packets total_packets with
                | inl e => Some (mkRun ev1 s (Some e))
                | inr (frame_data, ev2) =>
                    let evs := ev1 ++ ev2 ++ [ProcessFrame cur frame_data] in
                    match _cleanup_processed_frame s with
                    | (s', Some e) => Some (mkRun evs s' (Some e))
                    | (s', None) =>
                        before evs <$> process_complete_frames_loop fuel' s'
                    end
                end
              else Some (mkRun ev1 s None)
          end
      end
  end.

(** Every turn of the loop but the last deletes the head frame from
    [frame_buffers], so one more than its size is fuel enough
    (see [process_complete_frames_terminates]). *)
Definition enough_fuel (s : State) : nat := S (size (frame_buffers s)).

Definition process_complete_frames (s : State) : Run :=
  default (mkRun [] s None)
    (process_complete_frames_loop (enough_fuel s) s).

(** The two stores of [_process_packet]:
    [frame_total_packets[frame_number] = total_packets] and
    [frame_buffers[frame_number][packet_num] = packet_data], where reading
    an absent key of the [defaultdict] makes an empty [dict]. *)
Definition store_packet (s : State) (frame_number packet_num total_packets : Z)
    (packet_data : bytes) : State :=
  let ftp := <[frame_number := total_packets]> (frame_total_packets s) in
  let frame_packets := default ∅ (frame_buffers s !! frame_number) in
  let fb := <[frame_number := <[packet_num := packet_data]> frame_packets]>
              (frame_buffers s) in
  mkState fb ftp (current_frame s).

(** The [INFO] record of the first and of the last packet of a frame. *)
Definition packet_log (frame_number packet_num total_packets : Z)
  : list Event :=
  if packet_num =? 0 then
    [Log INFO (StartOfFrame frame_number total_packets)]
  else if packet_num =? total_packets - 1 then
    [Log INFO (EndOfFrame frame_number packet_num total_packets)]
  else [].

(** [_process_packet] *)
Definition _process_packet (s : State) (data : bytes) : Run :=
  let header := py_slice data 0 HEADER_SIZE in
  match Struct.unpack_III header with
  | None => mkRun [Log ERROR (UnpackFailed (len data))] s None
  | Some (frame_number, packet_num, total_packets) =>
      let packet_data := py_slice data HEADER_SIZE (len data) in
      before (packet_log frame_number packet_num total_packets)
        (process_complete_frames
           (store_packet s frame_number packet_num total_packets packet_data))
  end.

(** One turn of the loop of [check_socket] on a received datagram: the
    reassembler's [ingest]. *)
Definition ingest (s : State) (data : bytes) : Run :=
  if len data <? HEADER_SIZE then
    mkRun [Log WARNING (PacketTooSmall (len data))] s None
  else _process_packet s data.

(** [sock.recvfrom(MAX_UDP_SIZE)] on the queue of pending datagrams:
    [None] is [BlockingIOError]; a longer datagram is cut to the buffer
    size. *)
Definition recvfrom (bufsize : Z) (queue : list bytes)
  : option (bytes * list bytes) :=
  match queue with
  | [] => None
  | d :: rest => Some (take (Z.to_nat bufsize) d, rest)
  end.

(** [check_socket]: drains the queue; any exception is logged and ends the
    call, leaving the datagrams not yet read in the queue.  The packet
    statistics ([packets_received], [last_log_time]) follow the clock and
    are no part of the reassembly state; they and the status label of the
    window are left out. *)
Fixpoint check_socket (s : State) (queue : list bytes) : Run * list bytes :=
  match queue with
  | [] => (mkRun [] s None, [])
  | d :: rest =>
      let data := take (Z.to_nat MAX_UDP_SIZE) d in
      let r := ingest s data in
      match raised r with
      | Some e =>
          (mkRun (events r ++ [Log ERROR (CheckSocketError e)]) (state r) None,
           rest)
      | None =>
          let '(r', q') := check_socket (state r) rest in
          (before (events r) r', q')
      end
  end.

(** A sequence of ingests, one datagram after the other.  An exception ends
    the ingest of its datagram only: [check_socket] logs it, and the next
    datagram is read by the next call. *)
Fixpoint ingest_all (s : State) (datagrams : list bytes) : list Event * State :=
  match datagrams with
  | [] => ([], s)
  | data :: rest =>
      let r := ingest s data in
      let ev := match raised r with
                | Some e => [Log ERROR (CheckSocketError e)]
                | None => []
                end in
      let '(evs, s') := ingest_all (state r) rest in
      (events r ++ ev ++ evs, s')
  end.

(** *** Predicates of the specification *)

(** The set of present keys is exactly [{0, ..., total_packets - 1}]. *)
Definition keys_complete (frame_packets : gmap Z bytes) (total_packets : Z)
  : Prop :=
  dom frame_packets = list_to_set (range total_packets).

#[global] Instance keys_complete_dec frame_packets total_packets :
  Decision (keys_complete frame_packets total_packets).
Proof. unfold keys_complete. apply _. Defined.

(** The head frame can be emitted: it is buffered, its packet count is
    known and equals the number of buffered packets, and every index of
    [range(total_packets)] is present. *)
Definition head_ready (s : State) : bool :=
  match frame_buffers s !! current_frame s,
        frame_total_packets s !! current_frame s with
  | Some frame_packets, Some total_packets =>
      bool_decide (Z.of_nat (size frame_packets) = total_packets)
      && forallb (λ i, bool_decide (is_Some (frame_packets !! i)))
           (range total_packets)
  | _, _ => false
  end.

(** Every frame with a recorded packet count has a buffer. *)
Definition totals_within_buffers (s : State) : Prop :=
  dom (frame_total_packets s) ⊆ dom (frame_buffers s).

#[global] Instance totals_within_buffers_dec s :
  Decision (totals_within_buffers s).
Proof. unfold totals_within_buffers. apply _. Defined.

(** The header fields of a datagram, when it is long enough to have any. *)
Definition header_fields (data : bytes) : option (Z * Z * Z) :=
  if len data <? HEADER_SIZE then None
  else Struct.unpack_III (py_slice data 0 HEADER_SIZE).

(** [withholds head i data]: the datagram [data] is not packet [i] of
    frame [head], and if it belongs to frame [head] it declares more than
    [i] packets. *)
Definition withholds (head i : Z) (data : bytes) : bool :=
  match header_fields data with
  | Some (frame_number, packet_num, total_packets) =>
      if frame_number =? head
      then negb (packet_num =? i) && (i <? total_packets)
      else true
  | None => true
  end.

(** [blocked_on s i]: packet [i] of the head frame of [s] has not been
    received, and is a packet of that frame by its recorded count. *)
Definition blocked_on (s : State) (i : Z) : bool :=
  (0 <=? i)
  && match frame_buffers s !! current_frame s with
     | Some frame_packets => bool_decide (frame_packets !! i = None)
     | None => true
     end
  && match frame_total_packets s !! current_frame s with
     | Some total_packets => i <? total_packets
     | None => true
     end.

(** The complete packet set of one frame: chunk [i] of [chunks] under the
    header [(frame_number, i, len(chunks))]. *)
Definition frame_packets_of (frame_number : Z) (chunks : list bytes)
  : list bytes :=
  imap (λ i chunk,
          Sender.header_of frame_number (Z.of_nat i) (len chunks) ++ chunk)
       chunks.

(** The runs of the loop of [process_complete_frames], turn by turn. *)
Inductive loop_run : State → Run → Prop :=
  | run_missing s :
      frame_buffers s !! current_frame s = None →
      loop_run s (mkRun [] s None)
  | run_no_total s frame_packets :
      frame_buffers s !! current_frame s = Some frame_packets →
      frame_total_packets s !! current_frame s = None →
      loop_run s (mkRun [Log WARNING (NoTotalCount (current_frame s))] s None)
  | run_incomplete s frame_packets total_packets :
      frame_buffers s !! current_frame s = Some frame_packets →
      frame_total_packets s !! current_frame s = Some total_packets →
      Z.of_nat (size frame_packets) ≠ total_packets →
      loop_run s
        (mkRun (_is_frame_complete (current_frame s) frame_packets
                  total_packets).2 s None)
  | run_key_error s frame_packets total_packets k :
      frame_buffers s !! current_frame s = Some frame_packets →
      frame_total_packets s !! current_frame s = Some total_packets →
      Z.of_nat (size frame_packets) = total_packets →
      0 ≤ k < total_packets → frame_packets !! k = None →
      (∀ i, 0 ≤ i < k → is_Some (frame_packets !! i)) →
      loop_run s (mkRun [] s (Some (KeyError k)))
  | run_emit s frame_packets total_packets s' r :
      frame_buffers s !! current_frame s = Some frame_packets →
      frame_total_packets s !! current_frame s = Some total_packets →
      Z.of_nat (size frame_packets) = total_packets →
      (∀ i, 0 ≤ i < total_packets → is_Some (frame_packets !! i)) →
      _cleanup_processed_frame s = (s', None) →
      loop_run s' r →
      let frame_data :=
        concat ((λ i, frame_packets !!! i) <$> range total_packets) in
      loop_run s
        (before [Log INFO (ProcessingComplete (current_frame s) (len frame_data));
                 ProcessFrame (current_frame s) frame_data] r).


(** [covers l1 l2]: every datagram of [l1] occurs in [l2]. *)
Definition covers (l1 l2 : list bytes) : bool :=
  forallb (λ d, bool_decide (d ∈ l2)) l1.

(** The invariant of a reassembler that is gathering the packets of frame
    [frame_number], cut into [chunks], and has nothing else buffered: what
    it holds of the frame is right, and some packet is still to come. *)
Definition gathering (frame_number : Z) (chunks : list bytes) (s : State)
  : Prop :=
  let held := default ∅ (frame_buffers s !! frame_number) in
  current_frame s = frame_number ∧
  (∀ f, f ≠ frame_number →
        frame_buffers s !! f = None ∧ frame_total_packets s !! f = None) ∧
  (is_Some (frame_buffers s !! frame_number) →
   frame_total_packets s !! frame_number = Some (len chunks)) ∧
  (∀ i chunk, held !! i = Some chunk →
              0 ≤ i ∧ chunks !! Z.to_nat i = Some chunk) ∧
  (∃ j, 0 ≤ j < len chunks ∧ held !! j = None).

End Receiver.

(** ** The frame loop of [send_video]

    The frames come from the capture and the JPEG encoder, which are outside:
    the loop is modelled on the list of the encoded payloads it is given, one
    per turn.  An exception of a turn leaves the loop (it is logged by the
    handler around it); otherwise [frame_number] goes up by one. *)

Module Video.

Fixpoint send_video_frames (frame_number : Z) (payloads : list bytes)
  : Sender.Sent :=
  match payloads with
  | [] => Sender.mkSent [] None
  | data :: rest =>
      let r := Sender.send_frame frame_number data in
      match Sender.failure r with
      | Some e => r
      | None =>
          let r' := send_video_frames (frame_number + 1) rest in
          Sender.mkSent (Sender.datagrams r ++ Sender.datagrams r')
            (Sender.failure r')
      end
  end.

(** [send_video]: [frame_number = 0] before the loop. *)
Definition send_video (payloads : list bytes) : Sender.Sent :=
  send_video_frames 0 payloads.

(** A payload that [send_frame] can cut: not empty, and with a packet count
    that fits the header. *)
Definition sendable (data : bytes) : bool :=
  (1 <=? len data)
  && (len data <=? (Struct.U32_LIMIT - 1) * (MAX_UDP_SIZE - HEADER_SIZE)).

(** The packet counts of a stream, frame by frame: the count of the payload
    sent under frame number [f], and 0 for a number that is not sent. *)
Definition stream_totals (start : Z) (payloads : list bytes) (f : Z) : Z :=
  match payloads !! Z.to_nat (f - start) with
  | Some data =>
      default 0 (Sender.total_packets_of MAX_UDP_SIZE HEADER_SIZE data)
  | None => 0
  end.

End Video.

(** ** The timer of [VideoReceiver] and the traffic it reads *)

Module Poll.
Import Receiver.

(** [_setup_timer] connects [check_socket] to a timer: [timer_ticks n] is
    [n] calls in a row on the datagrams pending at the first. *)
Fixpoint timer_ticks (ticks : nat) (s : State) (queue : list bytes)
  : list Event * State * list bytes :=
  match ticks with
  | O => ([], s, queue)
  | S n =>
      let '(r, rest) := check_socket s queue in
      let '(evs, s', queue') := timer_ticks n (state r) rest in
      (events r ++ evs, s', queue')
  end.

(** What [recvfrom] hands over of each datagram of a queue. *)
Definition received (queue : list bytes) : list bytes :=
  take (Z.to_nat MAX_UDP_SIZE) <$> queue.

(** [conforms totals data]: the datagram, if it has a header, declares the
    packet count [totals f] of its frame [f] and an index below it. *)
Definition conforms (totals : Z → Z) (data : bytes) : bool :=
  match header_fields data with
  | Some (frame_number, packet_num, total_packets) =>
      (total_packets =? totals frame_number) && (packet_num <? total_packets)
  | None => true
  end.

(** The buffers hold conforming packets only. *)
Definition buffers_conform (totals : Z → Z) (s : State) : Prop :=
  ∀ f frame_packets,
    frame_buffers s !! f = Some frame_packets →
    frame_total_packets s !! f = Some (totals f) ∧
    ∀ k, is_Some (frame_packets !! k) → 0 ≤ k < totals f.

(** The two dictionaries have the same keys. *)
Definition same_keys (s : State) : Prop :=
  dom (frame_buffers s) = dom (frame_total_packets s).

#[global] Instance same_keys_dec s : Decision (same_keys s).
Proof. unfold same_keys. apply _. Defined.

(** The log records of a level and kind, to say that a run has none. *)
Definition is_no_total_count (ev : Event) : bool :=
  match ev with
  | Log _ (NoTotalCount _) => true
  | _ => false
  end.

Definition is_unpack_failed (ev : Event) : bool :=
  match ev with
  | Log _ (UnpackFailed _) => true
  | _ => false
  end.

Definition is_check_socket_error (ev : Event) : bool :=
  match ev with
  | Log _ (CheckSocketError _) => true
  | _ => false
  end.

End Poll.

(** ** The validation of a payload before it is decoded

    [VideoReceiver._validate_jpeg_data] (receiver.py) and
    [SimpleVideoReceiver._validate_jpeg_data] (new_receiver.py), each with
    the records it logs at the level of its logger. *)

Module Jpeg.
Import Receiver.

Definition MIN_JPEG_SIZE : Z := 100.
Definition JPEG_HEADER : bytes := [xff; xd8].
Definition JPEG_FOOTER : bytes := [xff; xd9].

(** [data.startswith(prefix)] and [data.endswith(suffix)] *)
Definition startswith (data prefix : bytes) : bool :=
  bool_decide (take (length prefix) data = prefix).

Definition endswith (data suffix : bytes) : bool :=
  bool_decide (drop (length data - length suffix)%nat data = suffix).

Inductive Record_ : Type :=
  | DataTooSmall (size : Z)
  | NoJpegHeader
  | FirstBytes (first : bytes)
  | NoJpegFooter.

(** receiver.py: size and header. *)
Definition _validate_jpeg_data (jpeg_data : bytes)
  : bool * list (Level * Record_) :=
  if len jpeg_data <? MIN_JPEG_SIZE then
    (false, [(ERROR, DataTooSmall (len jpeg_data))])
  else if negb (startswith jpeg_data JPEG_HEADER) then
    (false, [(ERROR, NoJpegHeader);
             (ERROR, FirstBytes (py_slice jpeg_data 0 10))])
  else (true, []).

(** new_receiver.py: size, header and footer; its [DEBUG] records are below
    the level of the logger. *)
Definition simple_validate_jpeg_data (data : bytes)
  : bool * list (Level * Record_) :=
  if len data <? MIN_JPEG_SIZE then
    (false, [(WARNING, DataTooSmall (len data))])
  else if negb (startswith data JPEG_HEADER) then
    (false, [(WARNING, NoJpegHeader)])
  else if negb (endswith data JPEG_FOOTER) then
    (false, [(WARNING, NoJpegFooter)])
  else (true, []).

End Jpeg.

Section slices.
Context {A : Type}.
Implicit Types l : list A.

Lemma len_nonneg l : 0 ≤ len l.
Proof. unfold len. lia. Qed.

Lemma len_app l1 l2 : len (l1 ++ l2) = len l1 + len l2.
Proof. unfold len. rewrite length_app. lia. Qed.

Lemma py_slice_nonneg l i j :
  0 ≤ i → 0 ≤ j →
  py_slice l i j = take (Z.to_nat (j - i)) (drop (Z.to_nat i) l).
Proof.
  intros Hi Hj. unfold py_slice, slice_index, len.
  destruct (Z.ltb_spec i 0); [lia|]. destruct (Z.ltb_spec j 0); [lia|].
  destruct (Z.le_gt_cases i (Z.of_nat (length l))) as [Hil|Hil].
  - rewrite (Z.min_l i) by lia.
    destruct (Z.le_gt_cases j (Z.of_nat (length l))).
    + by rewrite (Z.min_l j) by lia.
    + rewrite (Z.min_r j) by lia.
      rewrite !take_ge; [done| |]; rewrite length_drop; lia.
  - rewrite (Z.min_r i) by lia.
    rewrite !drop_ge by lia. by rewrite !take_nil.
Qed.

Lemma py_slice_prefix l (n : Z) :
  0 ≤ n → py_slice l 0 n = take (Z.to_nat n) l.
Proof.
  intros Hn. rewrite py_slice_nonneg by lia.
  by rewrite Z.sub_0_r.
Qed.

Lemma py_slice_suffix l (n : Z) :
  0 ≤ n → py_slice l n (len l) = drop (Z.to_nat n) l.
Proof.
  intros Hn. rewrite py_slice_nonneg by (pose proof (len_nonneg l); lia).
  apply take_ge. rewrite length_drop. unfold len. lia.
Qed.
End slices.

Module StructFacts.
Import Struct.

Lemma Z_of_byte_range b : 0 ≤ Z_of_byte b < 256.
Proof.
  unfold Z_of_byte. pose proof (Byte.to_N_bounded b). lia.
Qed.

Lemma Z_of_byte_of_Z z : Z_of_byte (byte_of_Z z) = z mod 256.
Proof.
  unfold Z_of_byte, byte_of_Z.
  assert (Hr : 0 ≤ z mod 256 < 256) by (apply Z.mod_pos_bound; lia).
  destruct (Byte.of_N (Z.to_N (z mod 256))) as [b|] eqn:E.
  - apply Byte.to_of_N in E. simpl. rewrite E. lia.
  - apply Byte.of_N_None_iff in E. lia.
Qed.

Lemma is_u32_spec z : is_u32 z = true ↔ 0 ≤ z < U32_LIMIT.
Proof. unfold is_u32. rewrite andb_true_iff, Z.leb_le, Z.ltb_lt. done. Qed.

Lemma of_be32_range b0 b1 b2 b3 : 0 ≤ of_be32 b0 b1 b2 b3 < U32_LIMIT.
Proof.
  unfold of_be32, U32_LIMIT.
  pose proof (Z_of_byte_range b0). pose proof (Z_of_byte_range b1).
  pose proof (Z_of_byte_range b2). pose proof (Z_of_byte_range b3). lia.
Qed.

Lemma of_be32_be32 z :
  0 ≤ z < U32_LIMIT →
  of_be32 (byte_of_Z (z / 16777216)) (byte_of_Z (z / 65536))
          (byte_of_Z (z / 256)) (byte_of_Z z) = z.
Proof.
  unfold U32_LIMIT, of_be32. intros Hz. rewrite !Z_of_byte_of_Z.
  Z.to_euclidean_division_equations. lia.
Qed.

Lemma length_be32 z : length (be32 z) = 4%nat.
Proof. reflexivity. Qed.

Lemma pack_III_Some a b c :
  0 ≤ a < U32_LIMIT → 0 ≤ b < U32_LIMIT → 0 ≤ c < U32_LIMIT →
  pack_III a b c = Some (be32 a ++ be32 b ++ be32 c).
Proof.
  intros Ha Hb Hc. unfold pack_III.
  by rewrite (proj2 (is_u32_spec a)), (proj2 (is_u32_spec b)),
    (proj2 (is_u32_spec c)).
Qed.

Lemma pack_III_inv a b c h :
  pack_III a b c = Some h →
  h = be32 a ++ be32 b ++ be32 c ∧
  0 ≤ a < U32_LIMIT ∧ 0 ≤ b < U32_LIMIT ∧ 0 ≤ c < U32_LIMIT.
Proof.
  unfold pack_III. intros H.
  destruct (is_u32 a) eqn:Ea, (is_u32 b) eqn:Eb, (is_u32 c) eqn:Ec;
    simpl in H; try discriminate.
  apply is_u32_spec in Ea, Eb, Ec. by inversion H.
Qed.

Lemma length_pack_III a b c h : pack_III a b c = Some h → length h = 12%nat.
Proof. intros H. apply pack_III_inv in H as [-> _]. reflexivity. Qed.

(** [unpack] undoes [pack]. *)
Lemma unpack_pack_III a b c h :
  pack_III a b c = Some h → unpack_III h = Some (a, b, c).
Proof.
  intros H. apply pack_III_inv in H as (-> & Ha & Hb & Hc).
  cbn [be32 app unpack_III]. by rewrite !of_be32_be32.
Qed.

Lemma unpack_III_Some header f p t :
  unpack_III header = Some (f, p, t) →
  length header = 12%nat ∧
  0 ≤ f < U32_LIMIT ∧ 0 ≤ p < U32_LIMIT ∧ 0 ≤ t < U32_LIMIT.
Proof.
  unfold unpack_III. intros H.
  do 13 (destruct header as [|? header]; try discriminate).
  inversion H; subst. auto using of_be32_range.
Qed.

Lemma unpack_III_length header :
  length header = 12%nat → is_Some (unpack_III header).
Proof.
  intros H.
  do 13 (destruct header as [|? header]; try discriminate).
  by eexists.
Qed.
End StructFacts.

(** ** The packetizer *)

Module SenderFacts.
Import Struct StructFacts Sender.

Section packetizer.
Variables max_packet_size header_size : Z.
Hypothesis room : header_size < max_packet_size.

Local Abbreviation chunk_size := (max_packet_size - header_size).

Lemma total_packets_of_Some data :
  total_packets_of max_packet_size header_size data
  = Some ((len data + chunk_size - 1) / chunk_size).
Proof.
  unfold total_packets_of.
  destruct (Z.eqb_spec (max_packet_size - header_size) 0); [lia|].
  do 2 f_equal. lia.
Qed.

(** The packet count is the ceiling of [len data / chunk_size]. *)
Lemma total_packets_ceiling data total :
  total_packets_of max_packet_size header_size data = Some total →
  (total - 1) * chunk_size < len data ≤ total * chunk_size.
Proof.
  rewrite total_packets_of_Some. intros [= <-].
  pose proof (len_nonneg data).
  Z.to_euclidean_division_equations. nia.
Qed.

Lemma total_packets_nonneg data total :
  total_packets_of max_packet_size header_size data = Some total →
  0 ≤ total ∧ (total = 0 ↔ data = []).
Proof.
  intros H. pose proof (total_packets_ceiling _ _ H) as Hc.
  pose proof (len_nonneg data). split; [nia|].
  split.
  - intros ->. destruct data; [done|]. unfold len in *. simpl in *. lia.
  - intros ->. unfold len in *. simpl in *. nia.
Qed.

Lemma chunk_of_nth_chunk data i :
  0 ≤ i → chunk_of max_packet_size header_size data i = nth_chunk chunk_size data i.
Proof.
  intros Hi. unfold chunk_of, nth_chunk.
  pose proof (len_nonneg data).
  rewrite py_slice_nonneg by nia.
  destruct (Z.le_gt_cases (i * chunk_size + chunk_size) (len data)).
  - rewrite Z.min_l by lia. do 2 f_equal. lia.
  - rewrite Z.min_r by lia.
    rewrite !take_ge; [done| |]; rewrite length_drop; unfold len in *; lia.
Qed.

(** The first [n] chunks are contiguous and do not overlap: together
    they are the first [n * chunk_size] bytes. *)
Lemma concat_nth_chunks data (n : nat) :
  concat (nth_chunk chunk_size data <$> range (Z.of_nat n))
  = take (Z.to_nat (Z.of_nat n * chunk_size)) data.
Proof.
  unfold range. induction n as [|n IH].
  - by rewrite seqZ_nil.
  - rewrite seqZ_S, fmap_app, concat_app, IH. simpl.
    rewrite app_nil_r. unfold nth_chunk. rewrite Z.add_0_l.
    rewrite take_take_drop. f_equal. nia.
Qed.

Lemma concat_all_chunks data total :
  total_packets_of max_packet_size header_size data = Some total →
  concat (nth_chunk chunk_size data <$> range total) = data.
Proof.
  intros H. pose proof (total_packets_ceiling _ _ H) as Hc.
  apply total_packets_nonneg in H as [H0 _].
  rewrite <- (Z2Nat.id total) at 1 by done.
  rewrite concat_nth_chunks, Z2Nat.id by done.
  apply take_ge. unfold len in Hc. lia.
Qed.

Lemma length_nth_chunk data i :
  0 ≤ i →
  len (nth_chunk chunk_size data i) = Z.max 0 (Z.min chunk_size (len data - i * chunk_size)).
Proof.
  intros Hi. unfold nth_chunk, len.
  rewrite length_take, length_drop. nia.
Qed.

Lemma send_loop_ok frame_number total data indices :
  0 ≤ frame_number < U32_LIMIT → 0 ≤ total < U32_LIMIT →
  Forall (λ i, 0 ≤ i < total) indices →
  send_loop max_packet_size header_size frame_number total data indices
  = mkSent ((λ i, header_of frame_number i total ++ nth_chunk chunk_size data i)
              <$> indices) None.
Proof.
  intros Hf Ht. induction 1 as [|i indices Hi _ IH]; [done|].
  simpl. rewrite pack_III_Some, IH by lia. simpl.
  by rewrite chunk_of_nth_chunk by lia.
Qed.

Lemma send_loop_struct_error frame_number total data i indices :
  ¬ (0 ≤ frame_number < U32_LIMIT ∧ 0 ≤ total < U32_LIMIT) →
  send_loop max_packet_size header_size frame_number total data (i :: indices)
  = mkSent [] (Some StructError).
Proof.
  intros Hn. simpl.
  destruct (pack_III frame_number i total) as [h|] eqn:E; [|done].
  apply pack_III_inv in E. tauto.
Qed.

(** What [split] hands to the transport. *)
Lemma split_ok frame_number data total :
  0 ≤ frame_number < U32_LIMIT →
  total_packets_of max_packet_size header_size data = Some total →
  total < U32_LIMIT →
  split max_packet_size header_size frame_number data
  = mkSent ((λ i, header_of frame_number i total ++ nth_chunk chunk_size data i)
              <$> range total) None.
Proof.
  intros Hf Ht Hlim. unfold split. rewrite Ht.
  pose proof (total_packets_nonneg _ _ Ht) as [H0 _].
  apply send_loop_ok; [done|lia|].
  apply Forall_seqZ. lia.
Qed.
End packetizer.
End SenderFacts.

Module ReceiverFacts.
Import Receiver.

Implicit Types (s : State) (r : Run) (pk : gmap Z bytes).
Implicit Types (fb : gmap Z (gmap Z bytes)) (ftp : gmap Z Z).

(** *** Completeness test *)

Lemma is_frame_complete_true cur pk t :
  (_is_frame_complete cur pk t).1 = true ↔ Z.of_nat (size pk) = t.
Proof.
  unfold _is_frame_complete. case_bool_decide; simpl; split; (done || lia).
Qed.

Lemma is_frame_complete_events cur pk t :
  Z.of_nat (size pk) = t → _is_frame_complete cur pk t = (true, []).
Proof. intros H. unfold _is_frame_complete. by rewrite bool_decide_false by lia. Qed.

Lemma size_range_set (t : Z) :
  size (list_to_set (range t) : gset Z) = Z.to_nat t.
Proof.
  unfold range. rewrite size_list_to_set by apply NoDup_seqZ.
  apply length_seqZ.
Qed.

Lemma elem_of_range_set (t i : Z) :
  i ∈ (list_to_set (range t) : gset Z) ↔ 0 ≤ i < t.
Proof. unfold range. rewrite elem_of_list_to_set, elem_of_seqZ. lia. Qed.

(** With every buffered index inside [range(total_packets)], counting the
    packets decides whether all of them are there. *)
Lemma count_complete_in_range pk t :
  (∀ k, is_Some (pk !! k) → 0 ≤ k < t) →
  Z.of_nat (size pk) = t →
  ∀ i, 0 ≤ i < t → is_Some (pk !! i).
Proof.
  intros Hin Hsize i Hi.
  assert (Heq : dom pk = list_to_set (range t)).
  { apply set_subseteq_size_eq.
    - intros k Hk. apply elem_of_range_set, Hin. by apply elem_of_dom.
    - rewrite size_range_set, size_dom. lia. }
  apply elem_of_dom. rewrite Heq. by apply elem_of_range_set.
Qed.

Lemma keys_complete_spec pk t :
  0 ≤ t →
  keys_complete pk t ↔
  Z.of_nat (size pk) = t ∧ ∀ i, 0 ≤ i < t → is_Some (pk !! i).
Proof.
  intros Ht. unfold keys_complete. split.
  - intros Heq. split.
    + rewrite <- size_dom, Heq, size_range_set. lia.
    + intros i Hi. apply elem_of_dom. rewrite Heq. by apply elem_of_range_set.
  - intros [Hsize Hall]. symmetry. apply set_subseteq_size_eq.
    + intros i Hi. apply elem_of_dom, Hall. by apply elem_of_range_set.
    + rewrite size_range_set, size_dom. lia.
Qed.

(** *** Reassembly *)

Lemma concat_packets_inr pk indices acc :
  Forall (λ i, is_Some (pk !! i)) indices →
  concat_packets pk indices acc
  = inr (acc ++ concat ((λ i, pk !!! i) <$> indices)).
Proof.
  intros H. revert acc. induction H as [|i indices [c Hc] _ IH]; intros acc.
  - simpl. by rewrite app_nil_r.
  - simpl. rewrite Hc, IH.
    rewrite lookup_total_alt, Hc. simpl. by rewrite app_assoc.
Qed.

Lemma concat_packets_inl pk indices acc k :
  k ∈ indices → pk !! k = None →
  ∃ k', k' ∈ indices ∧ pk !! k' = None ∧
        concat_packets pk indices acc = inl (KeyError k').
Proof.
  intros Hk Hnone. revert acc.
  induction indices as [|i indices IH]; intros acc.
  - by apply elem_of_nil in Hk.
  - simpl. destruct (pk !! i) as [c|] eqn:Hi.
    + apply elem_of_cons in Hk as [->|Hk]; [congruence|].
      destruct (IH Hk (acc ++ c)) as (k' & ? & ? & ?).
      exists k'. split_and!; [by right|done..].
    + exists i. split_and!; [by left|done..].
Qed.

(** The key of the [KeyError] is the first index that is absent. *)
Lemma concat_packets_first_missing pk (m n : Z) acc :
  0 ≤ n →
  (∀ i, m ≤ i < m + n → is_Some (pk !! i)) ∨
  (∃ k, m ≤ k < m + n ∧ pk !! k = None ∧
        (∀ i, m ≤ i < k → is_Some (pk !! i)) ∧
        concat_packets pk (seqZ m n) acc = inl (KeyError k)).
Proof.
  intros Hn. revert m acc.
  induction (Z.to_nat n) as [|n' IH] eqn:En in n, Hn |- *; intros m acc.
  - left. intros i Hi. lia.
  - rewrite seqZ_cons by lia. simpl.
    destruct (pk !! m) as [c|] eqn:Hm.
    + destruct (IH (Z.pred n) ltac:(lia) ltac:(lia) (Z.succ m) (acc ++ c))
        as [Hall|(k & Hk & Hnone & Hbefore & Heq)].
      * left. intros i Hi. destruct (decide (i = m)) as [->|]; [by eexists|].
        apply Hall. lia.
      * right. exists k. split; [lia|]. split; [done|]. split; [|done].
        intros i Hi. destruct (decide (i = m)) as [->|]; [by eexists|].
        apply Hbefore. lia.
    + right. exists m. split; [lia|]. split; [done|]. split; [|done]. intros i Hi. lia.
Qed.

Lemma reassemble_frame_ok cur pk t :
  (∀ i, 0 ≤ i < t → is_Some (pk !! i)) →
  _reassemble_frame cur pk t
  = let frame_data := concat ((λ i, pk !!! i) <$> range t) in
    inr (frame_data, [Log INFO (ProcessingComplete cur (len frame_data))]).
Proof.
  intros Hall. unfold _reassemble_frame.
  rewrite concat_packets_inr; [done|].
  apply Forall_seqZ. intros i Hi. apply Hall. lia.
Qed.

Lemma reassemble_frame_cases cur pk t :
  (∀ i, 0 ≤ i < t → is_Some (pk !! i)) ∨
  (∃ k, 0 ≤ k < t ∧ pk !! k = None ∧
        (∀ i, 0 ≤ i < k → is_Some (pk !! i)) ∧
        _reassemble_frame cur pk t = inl (KeyError k)).
Proof.
  destruct (Z.le_gt_cases 0 t) as [Ht|Ht]; [|left; intros; lia].
  destruct (concat_packets_first_missing pk 0 t [] Ht)
    as [Hall|(k & Hk & Hnone & Hbefore & Heq)]; [by left|right].
  exists k. unfold _reassemble_frame, range. rewrite Heq.
  split; [lia|]. split; [done|]. split; [|done]. intros i Hi. apply Hbefore. lia.
Qed.

(** *** Cleanup *)

Lemma drop_old_frames_lookup old fb ftp f :
  (drop_old_frames old fb ftp).1 !! f
    = (if decide (f ∈ old) then None else fb !! f) ∧
  (drop_old_frames old fb ftp).2 !! f
    = (if decide (f ∈ old) then None else ftp !! f).
Proof.
  unfold drop_old_frames. revert fb ftp.
  induction old as [|o old IH]; intros fb ftp; cbn [foldl fst snd].
  - split; (case_decide as H; [by apply elem_of_nil in H|done]).
  - destruct (IH (delete o fb) (delete o ftp)) as [-> ->].
    rewrite !lookup_delete.
    split; repeat case_decide; subst; try done; exfalso;
      rewrite ?elem_of_cons, ?not_elem_of_cons in *; intuition congruence.
Qed.

(** What [_cleanup_processed_frame] leaves when the head frame is buffered
    and counted, which is how [process_complete_frames] calls it. *)
Lemma cleanup_ok s pk t :
  frame_buffers s !! current_frame s = Some pk →
  frame_total_packets s !! current_frame s = Some t →
  ∃ s', _cleanup_processed_frame s = (s', None) ∧
    current_frame s' = current_frame s + 1 ∧
    (∀ f, frame_buffers s' !! f =
          if decide (f = current_frame s ∨
                     f < current_frame s + 1 - FRAME_BUFFER_SIZE)
          then None else frame_buffers s !! f) ∧
    (∀ f, frame_total_packets s' !! f =
          if decide (f = current_frame s ∨
                     (f < current_frame s + 1 - FRAME_BUFFER_SIZE ∧
                      is_Some (frame_buffers s !! f)))
          then None else frame_total_packets s !! f).
Proof.
  intros Hpk Ht. unfold _cleanup_processed_frame. rewrite Hpk, Ht.
  set (cur := current_frame s).
  set (old := filter _ _).
  pose proof (drop_old_frames_lookup old (delete cur (frame_buffers s))
                (delete cur (frame_total_packets s))) as Hlook.
  destruct (drop_old_frames old _ _) as [fb' ftp']. simpl in Hlook.
  eexists. split; [done|]. simpl. split; [done|].
  assert (Hold : ∀ f, f ∈ old ↔
            f < cur + 1 - FRAME_BUFFER_SIZE ∧ f ≠ cur ∧
            is_Some (frame_buffers s !! f)).
  { intros f. subst old. rewrite list_elem_of_filter, elem_of_elements,
      elem_of_dom, lookup_delete_is_Some. intuition congruence. }
  split; intros f;
    [rewrite (proj1 (Hlook f))|rewrite (proj2 (Hlook f))]; clear Hlook.
  - destruct (decide (f ∈ old)) as [Hin|Hnin].
    + apply Hold in Hin. rewrite decide_True by tauto. done.
    + destruct (decide (f = cur)) as [->|Hne].
      * rewrite lookup_delete_eq, decide_True by by left. done.
      * rewrite lookup_delete_ne by done.
        case_decide as Hd; [|done].
        destruct Hd as [?|Hlt]; [done|].
        destruct (frame_buffers s !! f) eqn:E; [|done].
        exfalso. apply Hnin, Hold. rewrite E. eauto.
  - destruct (decide (f ∈ old)) as [Hin|Hnin].
    + apply Hold in Hin. rewrite decide_True by tauto. done.
    + destruct (decide (f = cur)) as [->|Hne].
      * rewrite lookup_delete_eq, decide_True by by left. done.
      * rewrite lookup_delete_ne by done.
        rewrite decide_False; [done|].
        intros [?|[Hlt Hsome]]; [done|]. apply Hnin, Hold. done.
Qed.

Lemma cleanup_None_inv s s' :
  _cleanup_processed_frame s = (s', None) →
  ∃ pk t, frame_buffers s !! current_frame s = Some pk ∧
          frame_total_packets s !! current_frame s = Some t.
Proof.
  unfold _cleanup_processed_frame.
  destruct (frame_buffers s !! current_frame s) as [pk|]; [|done].
  destruct (frame_total_packets s !! current_frame s) as [t|]; [|done].
  eauto.
Qed.

(** Each cleanup takes the head frame out of [frame_buffers]. *)
Lemma cleanup_size s s' :
  _cleanup_processed_frame s = (s', None) →
  (size (frame_buffers s') < size (frame_buffers s))%nat.
Proof.
  intros H. destruct (cleanup_None_inv _ _ H) as (pk & t & Hpk & Ht).
  destruct (cleanup_ok s pk t Hpk Ht) as (s'' & Heq & _ & Hfb & _).
  rewrite H in Heq. injection Heq as <-.
  apply map_subset_size. split.
  - apply map_subseteq_spec. intros f x. rewrite Hfb.
    by case_decide.
  - intros Hsub. rewrite map_subseteq_spec in Hsub.
    specialize (Hsub _ _ Hpk). rewrite Hfb, decide_True in Hsub by by left.
    done.
Qed.

(** *** The loop of [process_complete_frames] *)

(** The fuel given to the loop is enough: it always returns. *)
Lemma loop_fuel_enough fuel s :
  (size (frame_buffers s) < fuel)%nat →
  is_Some (process_complete_frames_loop fuel s).
Proof.
  revert s. induction fuel as [|fuel IH]; intros s Hsize; [lia|].
  cbn [process_complete_frames_loop].
  destruct (frame_buffers s !! current_frame s) as [pk|] eqn:Hpk; [|by eexists].
  destruct (frame_total_packets s !! current_frame s) as [t|] eqn:Ht;
    [|by eexists].
  destruct (_is_frame_complete _ pk t) as [[] ev1]; [|by eexists].
  destruct (_reassemble_frame _ pk t) as [e|[frame_data ev2]]; [by eexists|].
  destruct (cleanup_ok s pk t Hpk Ht) as (s' & Hclean & _).
  rewrite Hclean. pose proof (cleanup_size _ _ Hclean).
  destruct (IH s') as [r' ->]; [lia|]. by eexists.
Qed.

Lemma loop_run_of_loop fuel s r :
  process_complete_frames_loop fuel s = Some r → loop_run s r.
Proof.
  revert s r. induction fuel as [|fuel IH]; intros s r; [done|].
  cbn [process_complete_frames_loop].
  destruct (frame_buffers s !! current_frame s) as [pk|] eqn:Hpk.
  2: { intros [= <-]. by constructor. }
  destruct (frame_total_packets s !! current_frame s) as [t|] eqn:Ht.
  2: { intros [= <-]. by econstructor. }
  destruct (decide (Z.of_nat (size pk) = t)) as [Hsize|Hsize].
  2: { pose proof (run_incomplete s pk t Hpk Ht Hsize) as Hrun.
       destruct (_is_frame_complete _ pk t) as [c ev1] eqn:Hc.
       assert (c = false) as ->.
       { pose proof (is_frame_complete_true (current_frame s) pk t) as Hiff.
         rewrite Hc in Hiff. simpl in Hiff. destruct c; [|done]. tauto. }
       by intros [= <-]. }
  rewrite is_frame_complete_events by done.
  destruct (reassemble_frame_cases (current_frame s) pk t)
    as [Hall|(k & Hk & Hnone & Hbefore & ->)].
  2: { intros [= <-]. by eapply run_key_error. }
  rewrite reassemble_frame_ok by done. cbv zeta.
  destruct (cleanup_ok s pk t Hpk Ht) as (s' & Hclean & _).
  rewrite Hclean.
  destruct (process_complete_frames_loop fuel s') as [r'|] eqn:Hr'; [|done].
  intros [= <-].
  exact (run_emit s pk t s' r' Hpk Ht Hsize Hall Hclean (IH _ _ Hr')).
Qed.

(** [process_complete_frames] returns, and its result is a run of the
    loop. *)
Lemma process_complete_frames_terminates s :
  process_complete_frames_loop (enough_fuel s) s
  = Some (process_complete_frames s).
Proof.
  unfold process_complete_frames.
  destruct (loop_fuel_enough (enough_fuel s) s) as [r ->]; [|done].
  unfold enough_fuel. lia.
Qed.

Lemma process_complete_frames_run s : loop_run s (process_complete_frames s).
Proof.
  eapply loop_run_of_loop, process_complete_frames_terminates.
Qed.

(** The loop is deterministic. *)
Lemma loop_run_det s r1 r2 : loop_run s r1 → loop_run s r2 → r1 = r2.
Proof.
  intros Hrun1. revert r2.
  induction Hrun1; intros r2 Hrun2; inversion Hrun2; subst; simplify_eq;
    try done;
    try (exfalso;
         match goal with
         | Hall : ∀ i, 0 ≤ i < _ → is_Some (?pk !! i),
           Hn : ?pk !! ?k = None |- _ =>
             destruct (Hall k) as [? ?]; [lia|congruence]
         end).
  - match goal with
    | Ha : ?pk !! ?a = None, Hb : ?pk !! ?b = None |- _ =>
        assert (a = b) as ->; [|done];
        destruct (Z.lt_trichotomy a b) as [?|[?|?]]; [exfalso|done|exfalso]
    end;
    match goal with
    | Hall : ∀ i, 0 ≤ i < _ → is_Some (?pk !! i),
      Hn : ?pk !! ?k = None |- _ =>
        destruct (Hall k) as [? ?]; [lia|congruence]
    end.
  - match goal with
    | Ha : _cleanup_processed_frame ?s = (?a, None),
      Hb : _cleanup_processed_frame ?s = (?b, None) |- _ =>
        rewrite Ha in Hb; injection Hb as <-
    end.
    match goal with
    | IH : ∀ r2, loop_run _ r2 → _ = r2, Hr : loop_run _ _ |- _ =>
        by rewrite (IH _ Hr)
    end.
Qed.

Lemma process_complete_frames_eq s r :
  loop_run s r → process_complete_frames s = r.
Proof. intros H. eapply loop_run_det; [apply process_complete_frames_run|done]. Qed.
End ReceiverFacts.

Module LoopFacts.
Import Receiver ReceiverFacts.

Implicit Types (s : State) (r : Run) (pk : gmap Z bytes).

Lemma emitted_app evs1 evs2 : emitted (evs1 ++ evs2) = emitted evs1 ++ emitted evs2.
Proof.
  induction evs1 as [|[f d|lvl msg] evs1 IH]; simpl; [done| |done].
  by rewrite IH.
Qed.

Lemma emitted_is_frame_complete cur pk t :
  emitted (_is_frame_complete cur pk t).2 = [].
Proof. unfold _is_frame_complete. by case_bool_decide. Qed.

Lemma head_ready_spec s :
  head_ready s = true ↔
  ∃ pk t,
    frame_buffers s !! current_frame s = Some pk ∧
    frame_total_packets s !! current_frame s = Some t ∧
    Z.of_nat (size pk) = t ∧
    ∀ i, 0 ≤ i < t → is_Some (pk !! i).
Proof.
  unfold head_ready.
  destruct (frame_buffers s !! current_frame s) as [pk|].
  2: { split; [done|]. by intros (? & ? & ? & _). }
  destruct (frame_total_packets s !! current_frame s) as [t|].
  2: { split; [done|]. by intros (? & ? & _ & ? & _). }
  rewrite andb_true_iff, bool_decide_eq_true, forallb_forall.
  split.
  - intros [Hsize Hall]. exists pk, t. split_and!; [done..|].
    intros i Hi. eapply bool_decide_eq_true, Hall.
    apply list_elem_of_In, elem_of_seqZ. lia.
  - intros (? & ? & [= <-] & [= <-] & Hsize & Hall). split; [done|].
    intros i Hi%list_elem_of_In%elem_of_seqZ.
    apply bool_decide_eq_true, Hall. lia.
Qed.

Lemma head_ready_false s pk t :
  frame_buffers s !! current_frame s = Some pk →
  frame_total_packets s !! current_frame s = Some t →
  head_ready s = false →
  Z.of_nat (size pk) ≠ t ∨ ∃ i, 0 ≤ i < t ∧ pk !! i = None.
Proof.
  intros Hpk Ht Hnot.
  destruct (decide (Z.of_nat (size pk) = t)) as [Hsize|]; [right|by left].
  destruct (reassemble_frame_cases 0 pk t) as [Hall|(k & Hk & Hnone & _)];
    [|by eauto].
  assert (head_ready s = true); [|congruence].
  apply head_ready_spec. eauto 6.
Qed.

(** A head frame that is not ready is left alone: nothing is emitted and
    the state does not change. *)
Lemma loop_run_not_ready s r :
  head_ready s = false → loop_run s r →
  emitted (events r) = [] ∧ state r = s.
Proof.
  intros Hnot Hrun. destruct Hrun; simpl;
    rewrite ?emitted_is_frame_complete; try done.
  assert (head_ready s = true); [|congruence].
  apply head_ready_spec. eauto 6.
Qed.

(** When the loop is left, by its test or by an exception, the head frame
    is missing or incomplete. *)
Lemma loop_run_exit s r : loop_run s r → head_ready (state r) = false.
Proof.
  induction 1; simpl; try done;
    apply not_true_is_false; rewrite head_ready_spec;
    intros (pk' & t' & Hpk' & Ht' & Hsize' & Hall'); simplify_eq.
  destruct (Hall' k) as [? ?]; [lia|congruence].
Qed.

(** The frames leave in cursor order: the [n] emitted frames carry the
    numbers [current_frame], ..., [current_frame + n - 1], and the cursor
    ends [n] further. *)
Lemma loop_run_in_order s r :
  loop_run s r →
  (emitted (events r)).*1 = seqZ (current_frame s) (len (emitted (events r))) ∧
  current_frame (state r) = current_frame s + len (emitted (events r)).
Proof.
  induction 1 as [| | | |s pk t s' r Hpk Ht Hsize Hall Hclean Hrun [IHe IHc]];
    cbn [events state before app emitted];
    rewrite ?emitted_is_frame_complete.
  1-4: unfold len; simpl; split; [by rewrite seqZ_nil|lia].
  destruct (cleanup_ok s pk t Hpk Ht) as (s'' & Hclean' & Hcur & _).
  rewrite Hclean in Hclean'. injection Hclean' as <-.
  rewrite fmap_cons, IHe, IHc, Hcur. cbn [fst].
  unfold len. cbn [length]. split; [|lia].
  rewrite (seqZ_cons (current_frame s)) by lia. do 2 f_equal; lia.
Qed.

Lemma loop_run_totals_within s r :
  loop_run s r → totals_within_buffers s → totals_within_buffers (state r).
Proof.
  induction 1 as [| | | |s pk t s' r Hpk Ht Hsize Hall Hclean Hrun IH];
    simpl; try done.
  intros Hinv. apply IH.
  destruct (cleanup_ok s pk t Hpk Ht) as (s'' & Hclean' & _ & Hfb & Hftp).
  rewrite Hclean in Hclean'. injection Hclean' as <-.
  intros f [x Hx]%elem_of_dom. rewrite Hftp in Hx.
  case_decide as Hd; [done|].
  assert (is_Some (frame_buffers s !! f)) as Hsome.
  { apply elem_of_dom, Hinv, elem_of_dom. eauto. }
  apply elem_of_dom. rewrite Hfb. rewrite decide_False; [done|].
  tauto.
Qed.
End LoopFacts.

Module IngestFacts.
Import Struct StructFacts Receiver ReceiverFacts LoopFacts.

Implicit Types (s : State) (r : Run) (pk : gmap Z bytes) (data : bytes).

(** *** Decoding a datagram *)

Lemma header_fields_None data :
  header_fields data = None ↔ len data < HEADER_SIZE.
Proof.
  unfold header_fields, HEADER_SIZE.
  destruct (Z.ltb_spec (len data) 12) as [Hlt|Hge]; [done|].
  split; [|lia]. intros Hnone.
  destruct (unpack_III_length (py_slice data 0 12)) as [x Hx]; [|congruence].
  rewrite py_slice_prefix by lia. rewrite length_take. unfold len in Hge. lia.
Qed.

Lemma header_fields_u32 data f p t :
  header_fields data = Some (f, p, t) →
  HEADER_SIZE ≤ len data ∧
  0 ≤ f < U32_LIMIT ∧ 0 ≤ p < U32_LIMIT ∧ 0 ≤ t < U32_LIMIT.
Proof.
  unfold header_fields.
  destruct (Z.ltb_spec (len data) HEADER_SIZE); [done|].
  intros Hu%unpack_III_Some. tauto.
Qed.

(** The wire format is read back as it was written. *)
Lemma header_fields_packet f p t chunk :
  0 ≤ f < U32_LIMIT → 0 ≤ p < U32_LIMIT → 0 ≤ t < U32_LIMIT →
  header_fields (Sender.header_of f p t ++ chunk) = Some (f, p, t) ∧
  py_slice (Sender.header_of f p t ++ chunk) HEADER_SIZE
    (len (Sender.header_of f p t ++ chunk)) = chunk.
Proof.
  intros Hf Hp Ht.
  pose proof (pack_III_Some f p t Hf Hp Ht) as Hpack.
  fold (Sender.header_of f p t) in Hpack.
  pose proof (length_pack_III _ _ _ _ Hpack) as Hlen.
  assert (Htake : take 12 (Sender.header_of f p t ++ chunk)
                  = Sender.header_of f p t).
  { rewrite take_app_le by lia. apply take_ge. lia. }
  assert (Hl : len (Sender.header_of f p t ++ chunk) = 12 + len chunk).
  { rewrite len_app. unfold len. rewrite Hlen. lia. }
  pose proof (len_nonneg chunk).
  unfold header_fields, HEADER_SIZE. split.
  - rewrite Hl. destruct (Z.ltb_spec (12 + len chunk) 12); [lia|].
    rewrite py_slice_prefix by lia. change (Z.to_nat 12) with 12%nat.
    rewrite Htake. by apply unpack_pack_III.
  - rewrite py_slice_suffix by lia. change (Z.to_nat 12) with 12%nat.
    rewrite drop_app_length'; done.
Qed.

(** *** One ingest *)

Lemma ingest_short s data :
  header_fields data = None →
  ingest s data = mkRun [Log WARNING (PacketTooSmall (len data))] s None.
Proof.
  intros H%header_fields_None. unfold ingest.
  by destruct (Z.ltb_spec (len data) HEADER_SIZE); [|lia].
Qed.

Lemma ingest_fields s data f p t :
  header_fields data = Some (f, p, t) →
  ingest s data
  = before (packet_log f p t)
      (process_complete_frames
         (store_packet s f p t (py_slice data HEADER_SIZE (len data)))).
Proof.
  unfold header_fields, ingest, _process_packet.
  destruct (Z.ltb_spec (len data) HEADER_SIZE); [done|].
  by intros ->.
Qed.

Lemma emitted_packet_log f p t : emitted (packet_log f p t) = [].
Proof.
  unfold packet_log. by destruct (p =? 0), (p =? t - 1).
Qed.

(** An ingest is either a dropped short datagram or a store followed by a
    run of the loop. *)
Lemma ingest_cases s data :
  (header_fields data = None ∧
   emitted (events (ingest s data)) = [] ∧ state (ingest s data) = s ∧
   raised (ingest s data) = None) ∨
  (∃ f p t r,
     header_fields data = Some (f, p, t) ∧
     loop_run (store_packet s f p t (py_slice data HEADER_SIZE (len data))) r ∧
     emitted (events (ingest s data)) = emitted (events r) ∧
     state (ingest s data) = state r ∧
     raised (ingest s data) = raised r).
Proof.
  destruct (header_fields data) as [[[f p] t]|] eqn:Hfields.
  - right. eexists f, p, t, _. split; [done|].
    split; [apply process_complete_frames_run|].
    rewrite (ingest_fields _ _ _ _ _ Hfields). simpl.
    by rewrite emitted_app, emitted_packet_log.
  - left. by rewrite ingest_short.
Qed.

Lemma store_packet_current_frame s f p t chunk :
  current_frame (store_packet s f p t chunk) = current_frame s.
Proof. done. Qed.

Lemma store_packet_totals_within s f p t chunk :
  totals_within_buffers s →
  totals_within_buffers (store_packet s f p t chunk).
Proof.
  unfold totals_within_buffers, store_packet. simpl.
  rewrite !dom_insert_L. set_solver.
Qed.

Lemma ingest_in_order s data :
  let frames := emitted (events (ingest s data)) in
  frames.*1 = seqZ (current_frame s) (len frames) ∧
  current_frame (state (ingest s data)) = current_frame s + len frames.
Proof.
  destruct (ingest_cases s data)
    as [(_ & -> & -> & _)|(f & p & t & r & _ & Hrun & -> & -> & _)].
  - simpl. unfold len. simpl. rewrite seqZ_nil by lia. split; [done|lia].
  - apply (loop_run_in_order _ _ Hrun).
Qed.

Lemma ingest_exit s data :
  HEADER_SIZE ≤ len data → head_ready (state (ingest s data)) = false.
Proof.
  intros Hlen.
  destruct (ingest_cases s data)
    as [(Hnone%header_fields_None & _)|(f & p & t & r & _ & Hrun & _ & -> & _)];
    [lia|].
  by eapply loop_run_exit.
Qed.

Lemma ingest_totals_within s data :
  totals_within_buffers s → totals_within_buffers (state (ingest s data)).
Proof.
  intros Hinv.
  destruct (ingest_cases s data)
    as [(_ & _ & -> & _)|(f & p & t & r & _ & Hrun & _ & -> & _)]; [done|].
  eapply loop_run_totals_within; [done|].
  by apply store_packet_totals_within.
Qed.

(** *** A sequence of ingests *)

Lemma ingest_all_cons s data datagrams :
  emitted (ingest_all s (data :: datagrams)).1
    = emitted (events (ingest s data))
      ++ emitted (ingest_all (state (ingest s data)) datagrams).1 ∧
  (ingest_all s (data :: datagrams)).2
    = (ingest_all (state (ingest s data)) datagrams).2.
Proof.
  cbn [ingest_all].
  destruct (ingest_all (state (ingest s data)) datagrams) as [evs s'].
  cbn [fst snd]. rewrite !emitted_app.
  by destruct (raised (ingest s data)).
Qed.

Lemma ingest_all_in_order s datagrams :
  let frames := emitted (ingest_all s datagrams).1 in
  frames.*1 = seqZ (current_frame s) (len frames) ∧
  current_frame (ingest_all s datagrams).2 = current_frame s + len frames.
Proof.
  revert s. induction datagrams as [|data datagrams IH]; intros s.
  - simpl. unfold len. simpl. rewrite seqZ_nil by lia. split; [done|lia].
  - cbv zeta. destruct (ingest_all_cons s data datagrams) as [-> ->].
    destruct (ingest_in_order s data) as [He Hc].
    destruct (IH (state (ingest s data))) as [IHe IHc].
    rewrite fmap_app, He, IHe, IHc, Hc, len_app.
    pose proof (len_nonneg (emitted (events (ingest s data)))).
    pose proof (len_nonneg
      (emitted (ingest_all (state (ingest s data)) datagrams).1)).
    split; [|lia]. by rewrite seqZ_app.
Qed.

Lemma ingest_all_totals_within s datagrams :
  totals_within_buffers s →
  totals_within_buffers (ingest_all s datagrams).2.
Proof.
  revert s. induction datagrams as [|data datagrams IH]; intros s Hinv;
    [done|].
  rewrite (proj2 (ingest_all_cons s data datagrams)).
  by apply IH, ingest_totals_within.
Qed.

Lemma fresh_totals_within cursor : totals_within_buffers (fresh_at cursor).
Proof. unfold totals_within_buffers. simpl. set_solver. Qed.

(** [check_socket] reads the queue through [recvfrom]. *)
Lemma check_socket_recvfrom s queue :
  check_socket s queue
  = match recvfrom MAX_UDP_SIZE queue with
    | None => (mkRun [] s None, [])
    | Some (data, rest) =>
        let r := ingest s data in
        match raised r with
        | Some e =>
            (mkRun (events r ++ [Log ERROR (CheckSocketError e)]) (state r)
               None, rest)
        | None =>
            let '(r', q') := check_socket (state r) rest in
            (before (events r) r', q')
        end
    end.
Proof. by destruct queue. Qed.

(** One call of [check_socket] ingests a prefix of the queue; the calls
    that follow ingest the rest. *)
Lemma check_socket_ingest_all s queue :
  Forall (λ d, len d ≤ MAX_UDP_SIZE) queue →
  let '(r, rest) := check_socket s queue in
  emitted (ingest_all s queue).1
    = emitted (events r) ++ emitted (ingest_all (state r) rest).1 ∧
  (ingest_all s queue).2 = (ingest_all (state r) rest).2.
Proof.
  intros Hall. revert s.
  induction Hall as [|d queue Hd _ IH]; intros s; [done|].
  cbn [check_socket].
  rewrite take_ge by (unfold len in Hd; lia).
  destruct (ingest_all_cons s d queue) as [-> ->].
  destruct (raised (ingest s d)) as [e|].
  - cbn [events state]. by rewrite emitted_app, app_nil_r.
  - specialize (IH (state (ingest s d))).
    destruct (check_socket (state (ingest s d)) queue) as [r rest].
    destruct IH as [-> ->]. simpl. by rewrite emitted_app, app_assoc.
Qed.
End IngestFacts.

Module Protocol.
Import Struct StructFacts Receiver ReceiverFacts LoopFacts IngestFacts.

Implicit Types (s : State) (r : Run) (pk : gmap Z bytes) (data : bytes).

(** C8: a datagram shorter than the header leaves the buffers and the
    cursor as they were, emits nothing and is dropped with one [WARNING]
    record; [check_socket] then goes on with the rest of the queue. *)
Theorem short_datagram_dropped s data queue :
  len data < HEADER_SIZE →
  ingest s data = mkRun [Log WARNING (PacketTooSmall (len data))] s None ∧
  state (ingest s data) = s ∧
  emitted (events (ingest s data)) = [] ∧
  check_socket s (data :: queue)
  = (before [Log WARNING (PacketTooSmall (len data))]
       (check_socket s queue).1,
     (check_socket s queue).2).
Proof.
  intros Hshort.
  assert (Hingest : ingest s data
            = mkRun [Log WARNING (PacketTooSmall (len data))] s None).
  { by apply ingest_short, header_fields_None. }
  rewrite Hingest. split_and!; [done..|].
  cbn [check_socket]. unfold HEADER_SIZE, MAX_UDP_SIZE in *.
  rewrite take_ge by (unfold len in Hshort; lia).
  rewrite Hingest. cbn [raised events state].
  by destruct (check_socket s queue).
Qed.

Lemma short_datagram_dropped_witness :
  let s := store_packet (fresh_at 3) 4 0 2 [x61] in
  ingest s [x01; x02; x03]
    = mkRun [Log WARNING (PacketTooSmall 3)] s None ∧
  state (ingest s [x01; x02; x03]) = s ∧
  emitted (events (ingest s [x01; x02; x03])) = [] ∧
  check_socket s [[x01; x02; x03]]
  = (before [Log WARNING (PacketTooSmall 3)] (check_socket s []).1,
     (check_socket s []).2).
Proof.
  apply (short_datagram_dropped (store_packet (fresh_at 3) 4 0 2 [x61])
           [x01; x02; x03] []).
  vm_compute. reflexivity.
Defined.

(** C10: a single well-formed datagram of the head frame with
    [packet_index = 1] and [total_packets = 1] passes the completeness test
    with index 0 absent; reassembly raises [KeyError(0)] in place of an
    emission; the exception ends the call of [check_socket], which leaves
    the rest of the queue unread, the frame buffered and the cursor where it
    was.  No ingest compares [packet_index] with [total_packets]: the
    packet is stored whatever the two are. *)
Theorem out_of_range_index_raises_key_error (head : Z) (chunk : bytes)
    (queue : list bytes) :
  0 ≤ head < U32_LIMIT → len chunk ≤ MAX_UDP_SIZE - HEADER_SIZE →
  let data := Sender.header_of head 1 1 ++ chunk in
  let stuck := mkState {[head := {[1 := chunk]}]} {[head := 1]} head in
  header_fields data = Some (head, 1, 1) ∧
  (_is_frame_complete head {[1 := chunk]} 1).1 = true ∧
  ({[1 := chunk]} : gmap Z bytes) !! 0 = None ∧
  _reassemble_frame head {[1 := chunk]} 1 = inl (KeyError 0) ∧
  ingest (fresh_at head) data = mkRun [] stuck (Some (KeyError 0)) ∧
  check_socket (fresh_at head) (data :: queue)
  = (mkRun [Log ERROR (CheckSocketError (KeyError 0))] stuck None, queue) ∧
  (∀ s f p t c,
     0 ≤ f < U32_LIMIT → 0 ≤ p < U32_LIMIT → 0 ≤ t < U32_LIMIT →
     ingest s (Sender.header_of f p t ++ c)
     = before (packet_log f p t)
         (process_complete_frames (store_packet s f p t c))).
Proof.
  intros Hhead Hchunk data stuck.
  assert (Hu : ∀ f p t c,
            0 ≤ f < U32_LIMIT → 0 ≤ p < U32_LIMIT → 0 ≤ t < U32_LIMIT →
            ∀ s, ingest s (Sender.header_of f p t ++ c)
            = before (packet_log f p t)
                (process_complete_frames (store_packet s f p t c))).
  { intros f p t c Hf Hp Ht s.
    destruct (header_fields_packet f p t c Hf Hp Ht) as [Hfields Hrest].
    by rewrite (ingest_fields _ _ _ _ _ Hfields), Hrest. }
  assert (H1 : 0 ≤ 1 < U32_LIMIT) by (unfold U32_LIMIT; lia).
  destruct (header_fields_packet head 1 1 chunk Hhead H1 H1) as [Hfields _].
  assert (Hnone : ({[1 := chunk]} : gmap Z bytes) !! 0 = None)
    by by apply lookup_singleton_ne.
  assert (Hsize : Z.of_nat (size ({[1 := chunk]} : gmap Z bytes)) = 1)
    by by rewrite map_size_singleton.
  assert (Hreasm : _reassemble_frame head {[1 := chunk]} 1 = inl (KeyError 0)).
  { unfold _reassemble_frame, range. rewrite seqZ_cons by lia. simpl.
    by rewrite Hnone. }
  assert (Hingest : ingest (fresh_at head) data
                    = mkRun [] stuck (Some (KeyError 0))).
  { subst data. rewrite Hu by done.
    assert (Hstore : store_packet (fresh_at head) head 1 1 chunk = stuck).
    { unfold store_packet, stuck. simpl.
      by rewrite lookup_empty, !insert_empty. }
    rewrite Hstore.
    rewrite (process_complete_frames_eq stuck (mkRun [] stuck (Some (KeyError 0)))).
    - done.
    - eapply (run_key_error stuck {[1 := chunk]} 1 0); simpl;
        rewrite ?lookup_singleton_eq; try done; lia. }
  split; [done|]. split; [by apply is_frame_complete_true|].
  split; [done|]. split; [done|]. split; [done|]. split.
  - cbn [check_socket].
    rewrite take_ge.
    + by rewrite Hingest.
    + subst data. unfold MAX_UDP_SIZE, HEADER_SIZE, len in *.
      rewrite length_app. change (length (Sender.header_of head 1 1)) with 12%nat.
      lia.
  - intros s f p t c Hf Hp Ht. by apply Hu.
Qed.

Lemma out_of_range_index_raises_key_error_witness :
  let data := Sender.header_of 0 1 1 ++ [x61; x62] in
  let stuck := mkState {[0 := {[1 := [x61; x62]]}]} {[0 := 1]} 0 in
  header_fields data = Some (0, 1, 1) ∧
  (_is_frame_complete 0 {[1 := [x61; x62]]} 1).1 = true ∧
  ({[1 := [x61; x62]]} : gmap Z bytes) !! 0 = None ∧
  _reassemble_frame 0 {[1 := [x61; x62]]} 1 = inl (KeyError 0) ∧
  ingest (fresh_at 0) data = mkRun [] stuck (Some (KeyError 0)) ∧
  check_socket (fresh_at 0) [data; data]
  = (mkRun [Log ERROR (CheckSocketError (KeyError 0))] stuck None, [data]) ∧
  (∀ s f p t c,
     0 ≤ f < U32_LIMIT → 0 ≤ p < U32_LIMIT → 0 ≤ t < U32_LIMIT →
     ingest s (Sender.header_of f p t ++ c)
     = before (packet_log f p t)
         (process_complete_frames (store_packet s f p t c))).
Proof.
  apply (out_of_range_index_raises_key_error 0 [x61; x62]
           [Sender.header_of 0 1 1 ++ [x61; x62]]).
  - vm_compute. split; [discriminate|reflexivity].
  - vm_compute. discriminate.
Defined.

(** C2, at the failing input: the buffer [{1: b'a'}] of a frame declared
    with one packet passes [_is_frame_complete], although its key set is
    [{1}] and not [{0}]. *)
Theorem count_test_accepts_missing_index :
  let frame_packets : gmap Z bytes := {[1 := [x61]]} in
  (_is_frame_complete 0 frame_packets 1).1 = true ∧
  dom frame_packets = {[1]} ∧
  (list_to_set (range 1) : gset Z) = {[0]} ∧
  bool_decide (keys_complete frame_packets 1) = false ∧
  state (ingest (fresh_at 0) (Sender.header_of 0 1 1 ++ [x61]))
  = mkState {[0 := frame_packets]} {[0 := 1]} 0.
Proof. vm_compute. repeat split. Qed.

(** Where every buffered index lies in [range(total_packets)], as it does
    for the packets of one sender, the test of [_is_frame_complete] is the
    equality of the key set with [{0, ..., total_packets - 1}]. *)
Lemma is_frame_complete_in_range cur pk t :
  0 ≤ t → (∀ k, is_Some (pk !! k) → 0 ≤ k < t) →
  (_is_frame_complete cur pk t).1 = true ↔ keys_complete pk t.
Proof.
  intros Ht Hin. rewrite is_frame_complete_true.
  rewrite keys_complete_spec by done. split; [|tauto].
  intros Hsize. split; [done|]. by apply count_complete_in_range.
Qed.

(** *** Packets with [total_packets = 0] *)

Lemma store_packet_zero_not_ready s f p c :
  head_ready s = false → head_ready (store_packet s f p 0 c) = false.
Proof.
  intros Hnot. apply not_true_is_false. intros Hready.
  apply head_ready_spec in Hready as (pk & t & Hpk & Ht & Hsize & Hall).
  unfold store_packet in Hpk, Ht. simpl in Hpk, Ht.
  destruct (decide (f = current_frame s)) as [->|Hne].
  - rewrite lookup_insert_eq in Hpk. rewrite lookup_insert_eq in Ht.
    simplify_eq.
    assert (size (<[p:=c]> (default ∅ (frame_buffers s !! current_frame s)))
            = 0%nat) as Hzero by lia.
    apply map_size_empty_iff in Hzero. by apply insert_non_empty in Hzero.
  - rewrite lookup_insert_ne in Hpk by done.
    rewrite lookup_insert_ne in Ht by done.
    assert (head_ready s = true); [|congruence].
    apply head_ready_spec. eauto 6.
Qed.

(** C7, as the code has it: a datagram whose header declares
    [total_packets = 0] is not rejected.  The count 0 is recorded for its
    frame and its chunk is stored under its packet index; with the head
    frame not ready before, as after every ingest, nothing is emitted and
    the cursor stays. *)
Theorem zero_total_packet_is_stored s data f p :
  header_fields data = Some (f, p, 0) → head_ready s = false →
  let chunk := py_slice data HEADER_SIZE (len data) in
  state (ingest s data) = store_packet s f p 0 chunk ∧
  frame_total_packets (state (ingest s data)) !! f = Some 0 ∧
  frame_buffers (state (ingest s data)) !! f
    = Some (<[p := chunk]> (default ∅ (frame_buffers s !! f))) ∧
  emitted (events (ingest s data)) = [] ∧
  current_frame (state (ingest s data)) = current_frame s.
Proof.
  intros Hfields Hnot chunk.
  rewrite (ingest_fields _ _ _ _ _ Hfields). fold chunk.
  cbn [before state events]. rewrite emitted_app, emitted_packet_log.
  destruct (loop_run_not_ready (store_packet s f p 0 chunk)
              (process_complete_frames (store_packet s f p 0 chunk)))
    as [-> ->].
  - by apply store_packet_zero_not_ready.
  - apply process_complete_frames_run.
  - unfold store_packet. simpl. by rewrite !lookup_insert_eq.
Qed.

Lemma zero_total_packet_is_stored_witness :
  let data := Sender.header_of 2 7 0 ++ [x61] in
  header_fields data = Some (2, 7, 0) ∧ head_ready (fresh_at 2) = false ∧
  state (ingest (fresh_at 2) data) = store_packet (fresh_at 2) 2 7 0 [x61] ∧
  frame_total_packets (state (ingest (fresh_at 2) data)) !! 2 = Some 0 ∧
  frame_buffers (state (ingest (fresh_at 2) data)) !! 2
    = Some (<[7 := [x61]]> (default ∅ (frame_buffers (fresh_at 2) !! 2))) ∧
  emitted (events (ingest (fresh_at 2) data)) = [] ∧
  current_frame (state (ingest (fresh_at 2) data)) = current_frame (fresh_at 2).
Proof.
  split; [vm_compute; reflexivity|]. split; [vm_compute; reflexivity|].
  apply (zero_total_packet_is_stored (fresh_at 2)
           (Sender.header_of 2 7 0 ++ [x61]) 2 7);
    vm_compute; reflexivity.
Defined.

(** C7, as stated, fails: the twelve zero bytes are the header [(0, 0, 0)];
    their ingest creates the buffer of frame 0 and records its count. *)
Lemma zero_total_packet_mutates_state :
  let data := replicate 12 x00 in
  let s := state (ingest _setup_frame_buffers data) in
  header_fields data = Some (0, 0, 0) ∧
  frame_buffers s !! 0 = Some {[0 := []]} ∧
  frame_total_packets s !! 0 = Some 0 ∧
  frame_buffers _setup_frame_buffers !! 0 = None ∧
  frame_total_packets _setup_frame_buffers !! 0 = None.
Proof. vm_compute. repeat split. Qed.

(** *** Eviction *)

(** C5, as the code has it: right after a cursor advance no buffer and no
    packet count is left for a frame below [cursor - FRAME_BUFFER_SIZE], nor
    for the frame just emitted; every other frame keeps its buffer. *)
Theorem cursor_advance_evicts s s' :
  totals_within_buffers s → _cleanup_processed_frame s = (s', None) →
  current_frame s' = current_frame s + 1 ∧
  (∀ f, f < current_frame s' - FRAME_BUFFER_SIZE →
        frame_buffers s' !! f = None ∧ frame_total_packets s' !! f = None) ∧
  (frame_buffers s' !! current_frame s = None ∧
   frame_total_packets s' !! current_frame s = None) ∧
  (∀ f, current_frame s' - FRAME_BUFFER_SIZE ≤ f → f ≠ current_frame s →
        frame_buffers s' !! f = frame_buffers s !! f ∧
        frame_total_packets s' !! f = frame_total_packets s !! f).
Proof.
  intros Hinv Hclean.
  destruct (cleanup_None_inv _ _ Hclean) as (pk & t & Hpk & Ht).
  destruct (cleanup_ok s pk t Hpk Ht) as (s'' & Heq & Hcur & Hfb & Hftp).
  rewrite Hclean in Heq. injection Heq as <-.
  rewrite Hcur. split; [done|]. split; [|split].
  - intros f Hf. rewrite Hfb, Hftp.
    rewrite decide_True by by right. split; [done|].
    destruct (frame_total_packets s !! f) as [x|] eqn:Hx; [|by case_decide].
    rewrite decide_True; [done|]. right. split; [done|].
    apply elem_of_dom, Hinv, elem_of_dom. eauto.
  - rewrite Hfb, Hftp. by rewrite !decide_True by by left.
  - intros f Hf Hne. rewrite Hfb, Hftp.
    rewrite !decide_False; [done| |]; intros [?|?]; (done || lia).
Qed.

Lemma cursor_advance_evicts_witness :
  let s := store_packet (store_packet (fresh_at 8) 2 0 3 [x61]) 8 0 1 [x62] in
  let s' := mkState ∅ ∅ 9 in
  totals_within_buffers s ∧ _cleanup_processed_frame s = (s', None) ∧
  current_frame s' = current_frame s + 1 ∧
  (∀ f, f < current_frame s' - FRAME_BUFFER_SIZE →
        frame_buffers s' !! f = None ∧ frame_total_packets s' !! f = None) ∧
  (frame_buffers s' !! current_frame s = None ∧
   frame_total_packets s' !! current_frame s = None) ∧
  (∀ f, current_frame s' - FRAME_BUFFER_SIZE ≤ f → f ≠ current_frame s →
        frame_buffers s' !! f = frame_buffers s !! f ∧
        frame_total_packets s' !! f = frame_total_packets s !! f).
Proof.
  assert (Hinv : totals_within_buffers
            (store_packet (store_packet (fresh_at 8) 2 0 3 [x61]) 8 0 1 [x62])).
  { refine (bool_decide_unpack _ _). vm_compute. exact I. }
  split; [exact Hinv|]. split; [vm_compute; reflexivity|].
  apply (cursor_advance_evicts _ _ Hinv). vm_compute. reflexivity.
Defined.

(** C5, as stated, fails in its second half: frame 0 is delivered, a
    duplicate of its packet is buffered again, and the advance of the cursor
    from 1 to 2 leaves that buffer, of a frame below the cursor, in place. *)
Lemma frame_below_cursor_still_buffered :
  let p0 := Sender.header_of 0 0 1 ++ [x61] in
  let p1 := Sender.header_of 1 0 1 ++ [x62] in
  let before_advance := (ingest_all _setup_frame_buffers [p0; p0]).2 in
  let after_advance := state (ingest before_advance p1) in
  current_frame before_advance = 1 ∧
  current_frame after_advance = 2 ∧
  emitted (events (ingest before_advance p1)) = [(1, [x62])] ∧
  frame_buffers after_advance !! 0 = Some {[0 := [x61]]} ∧
  frame_total_packets after_advance !! 0 = Some 1.
Proof. vm_compute. repeat split. Qed.

(** *** Head-of-line blocking *)

Lemma blocked_on_spec s i :
  blocked_on s i = true ↔
  0 ≤ i ∧
  (∀ pk, frame_buffers s !! current_frame s = Some pk → pk !! i = None) ∧
  (∀ t, frame_total_packets s !! current_frame s = Some t → i < t).
Proof.
  unfold blocked_on. rewrite !andb_true_iff, Z.leb_le.
  destruct (frame_buffers s !! current_frame s) as [pk|];
    destruct (frame_total_packets s !! current_frame s) as [t|];
    rewrite ?bool_decide_eq_true, ?Z.ltb_lt; naive_solver.
Qed.

Lemma blocked_not_ready s i : blocked_on s i = true → head_ready s = false.
Proof.
  intros (Hi & Hpk & Ht)%blocked_on_spec. apply not_true_is_false.
  intros (pk & t & Hpk' & Ht' & _ & Hall)%head_ready_spec.
  destruct (Hall i) as [c Hc]; [by split; [|apply Ht]|].
  by rewrite (Hpk _ Hpk') in Hc.
Qed.

Lemma blocked_store s i f p t c :
  blocked_on s i = true →
  (f = current_frame s → p ≠ i ∧ i < t) →
  blocked_on (store_packet s f p t c) i = true.
Proof.
  intros (Hi & Hpk & Ht)%blocked_on_spec Hwith. apply blocked_on_spec.
  unfold store_packet. simpl. split; [done|].
  destruct (decide (f = current_frame s)) as [->|Hne].
  - destruct Hwith as [Hp Hit]; [done|].
    rewrite !lookup_insert_eq. split.
    + intros pk [= <-]. rewrite lookup_insert_ne by done.
      destruct (frame_buffers s !! current_frame s) as [pk|]; [by apply Hpk|done].
    + by intros ? [= <-].
  - by rewrite !lookup_insert_ne by done.
Qed.

Lemma blocked_ingest s i data :
  blocked_on s i = true → withholds (current_frame s) i data = true →
  emitted (events (ingest s data)) = [] ∧
  state (ingest s data)
    = match header_fields data with
      | Some (f, p, t) =>
          store_packet s f p t (py_slice data HEADER_SIZE (len data))
      | None => s
      end ∧
  blocked_on (state (ingest s data)) i = true.
Proof.
  intros Hblocked Hwith. unfold withholds in Hwith.
  destruct (ingest_cases s data)
    as [(-> & -> & -> & _)|(f & p & t & r & Hf & Hrun & -> & -> & _)]; [done|].
  rewrite Hf in Hwith |- *.
  assert (Hb : blocked_on
            (store_packet s f p t (py_slice data HEADER_SIZE (len data))) i
            = true).
  { apply blocked_store; [done|]. intros ->.
    rewrite Z.eqb_refl in Hwith.
    apply andb_true_iff in Hwith as [Hp%negb_true_iff%Z.eqb_neq Ht%Z.ltb_lt].
    done. }
  destruct (loop_run_not_ready _ _ (blocked_not_ready _ _ Hb) Hrun) as [-> ->].
  done.
Qed.

Lemma blocked_ingest_all s i datagrams :
  blocked_on s i = true →
  forallb (withholds (current_frame s) i) datagrams = true →
  emitted (ingest_all s datagrams).1 = [] ∧
  current_frame (ingest_all s datagrams).2 = current_frame s.
Proof.
  revert s. induction datagrams as [|data datagrams IH]; intros s Hb Hall;
    [done|].
  cbn [forallb] in Hall. apply andb_true_iff in Hall as [Hdata Hall].
  destruct (ingest_all_cons s data datagrams) as [-> ->].
  destruct (blocked_ingest s i data Hb Hdata) as (-> & Hstate & Hb').
  assert (Hcur : current_frame (state (ingest s data)) = current_frame s).
  { rewrite Hstate. by destruct (header_fields data) as [[[??]?]|]. }
  destruct (IH (state (ingest s data)) Hb') as [-> ->]; [by rewrite Hcur|].
  done.
Qed.

(** C6: while packet [i] of the head frame is withheld, whatever else is
    ingested, packets of later frames and whole later frames included, no
    frame is emitted and the cursor does not move. *)
Theorem withheld_head_packet_blocks_all s i datagrams :
  blocked_on s i = true →
  forallb (withholds (current_frame s) i) datagrams = true →
  emitted (ingest_all s datagrams).1 = [] ∧
  current_frame (ingest_all s datagrams).2 = current_frame s.
Proof. apply blocked_ingest_all. Qed.

Lemma withheld_head_packet_blocks_all_witness :
  let head0 := Sender.header_of 0 0 2 ++ [x61] in
  let next := Sender.header_of 1 0 1 ++ [x62] in
  let later := Sender.header_of 2 0 1 ++ [x63] in
  let datagrams := [next; head0; later; head0; [x00]] in
  blocked_on _setup_frame_buffers 1 = true ∧
  forallb (withholds 0 1) datagrams = true ∧
  emitted (ingest_all _setup_frame_buffers datagrams).1 = [] ∧
  current_frame (ingest_all _setup_frame_buffers datagrams).2 = 0.
Proof.
  split; [vm_compute; reflexivity|]. split; [vm_compute; reflexivity|].
  apply (withheld_head_packet_blocks_all _setup_frame_buffers 1);
    vm_compute; reflexivity.
Defined.

(** *** Ordered emission *)

(** C3: over any sequence of ingests, from any state, the frames handed to
    the consumer carry the numbers [current_frame], [current_frame + 1],
    ... in this order, each once, and the cursor ends one past the last;
    a head frame that is not ready blocks the loop, whatever else is
    buffered; and when the loop is left the head frame is missing or
    incomplete. *)
Theorem frames_emitted_in_cursor_order s datagrams :
  let frames := emitted (ingest_all s datagrams).1 in
  frames.*1 = seqZ (current_frame s) (len frames) ∧
  current_frame (ingest_all s datagrams).2 = current_frame s + len frames ∧
  (∀ s0, head_ready s0 = false →
         emitted (events (process_complete_frames s0)) = [] ∧
         state (process_complete_frames s0) = s0) ∧
  (∀ s0, head_ready (state (process_complete_frames s0)) = false) ∧
  (∀ s0 data, HEADER_SIZE ≤ len data →
              head_ready (state (ingest s0 data)) = false).
Proof.
  cbv zeta. destruct (ingest_all_in_order s datagrams) as [He Hc].
  split; [done|]. split; [done|]. split; [|split].
  - intros s0 Hnot.
    by apply loop_run_not_ready, process_complete_frames_run.
  - intros s0. eapply loop_run_exit, process_complete_frames_run.
  - intros s0 data. apply ingest_exit.
Qed.
End Protocol.

Module OneFrame.
Import Struct StructFacts Receiver ReceiverFacts LoopFacts IngestFacts Protocol.

Implicit Types (s : State) (r : Run) (pk : gmap Z bytes) (data : bytes).

Section one_frame.
Variable frame_number : Z.
Variable chunks : list bytes.
Hypothesis frame_number_u32 : 0 ≤ frame_number < U32_LIMIT.
Hypothesis total_u32 : 1 ≤ len chunks < U32_LIMIT.

Local Abbreviation packets := (frame_packets_of frame_number chunks).
Local Abbreviation total := (len chunks).

Lemma elem_of_packets d :
  d ∈ packets ↔
  ∃ (i : nat) chunk,
    chunks !! i = Some chunk ∧
    d = Sender.header_of frame_number (Z.of_nat i) total ++ chunk.
Proof.
  unfold frame_packets_of. rewrite elem_of_lookup_imap. naive_solver.
Qed.

Lemma packet_fields (i : nat) chunk :
  chunks !! i = Some chunk →
  let d := Sender.header_of frame_number (Z.of_nat i) total ++ chunk in
  header_fields d = Some (frame_number, Z.of_nat i, total) ∧
  py_slice d HEADER_SIZE (len d) = chunk.
Proof.
  intros Hi%lookup_lt_Some. apply header_fields_packet; [done| |lia].
  unfold len in total_u32. lia.
Qed.

Lemma fresh_gathering : gathering frame_number chunks (fresh_at frame_number).
Proof.
  unfold gathering. simpl. rewrite lookup_empty. simpl.
  split; [done|]. split; [by intros; rewrite !lookup_empty|].
  split; [by intros [? ?]|]. split; [by intros ??; rewrite lookup_empty|].
  exists 0. split; [lia|apply lookup_empty].
Qed.

Lemma gathering_store s (i : nat) chunk :
  gathering frame_number chunks s → chunks !! i = Some chunk →
  let s1 := store_packet s frame_number (Z.of_nat i) total chunk in
  let held := <[Z.of_nat i := chunk]> (default ∅ (frame_buffers s !! frame_number)) in
  current_frame s1 = frame_number ∧
  frame_buffers s1 !! frame_number = Some held ∧
  frame_total_packets s1 !! frame_number = Some total ∧
  (∀ f, f ≠ frame_number →
        frame_buffers s1 !! f = None ∧ frame_total_packets s1 !! f = None) ∧
  (∀ k c, held !! k = Some c → 0 ≤ k ∧ chunks !! Z.to_nat k = Some c).
Proof.
  intros (Hcur & Hother & Htotal & Hheld & _) Hi. cbv zeta.
  unfold store_packet. simpl. rewrite !lookup_insert_eq.
  split; [done|]. split; [done|]. split; [done|]. split.
  - intros f Hf. rewrite !lookup_insert_ne by done. by apply Hother.
  - intros k c. destruct (decide (k = Z.of_nat i)) as [->|Hne].
    + rewrite lookup_insert_eq. intros [= <-]. rewrite Nat2Z.id.
      split; [lia|done].
    + rewrite lookup_insert_ne by done. apply Hheld.
Qed.

(** The chunks held under the indices of [range(total)] are [chunks]. *)
Lemma held_chunks pk :
  (∀ k c, pk !! k = Some c → 0 ≤ k ∧ chunks !! Z.to_nat k = Some c) →
  (∀ k, 0 ≤ k < total → is_Some (pk !! k)) →
  (λ k, pk !!! k) <$> range total = chunks.
Proof.
  intros Hheld Hall. apply list_eq. intros n. unfold range.
  rewrite list_lookup_fmap.
  destruct (decide (Z.of_nat n < total)) as [Hn|Hn].
  - rewrite lookup_seqZ_lt by done. simpl. rewrite Z.add_0_l.
    destruct (Hall (Z.of_nat n)) as [c Hc]; [lia|].
    rewrite lookup_total_alt, Hc. simpl.
    apply Hheld in Hc as [_ Hc]. by rewrite Nat2Z.id in Hc.
  - rewrite lookup_seqZ_ge by lia. simpl. symmetry.
    apply lookup_ge_None. unfold len in Hn. lia.
Qed.

Lemma packet_index_inj (i i' : nat) chunk chunk' :
  chunks !! i = Some chunk → chunks !! i' = Some chunk' →
  Sender.header_of frame_number (Z.of_nat i) total ++ chunk
  = Sender.header_of frame_number (Z.of_nat i') total ++ chunk' →
  i = i'.
Proof.
  intros Hi Hi' Heq.
  destruct (packet_fields i chunk Hi) as [Hf _].
  destruct (packet_fields i' chunk' Hi') as [Hf' _].
  rewrite Heq, Hf' in Hf. injection Hf as Hii. lia.
Qed.

(** One more packet of the frame: either the frame is still incomplete
    and nothing is emitted, or it is emitted whole and the cursor moves
    on to a frame of which nothing is buffered. *)
Lemma gathering_ingest s d :
  gathering frame_number chunks s → d ∈ packets →
  (emitted (events (ingest s d)) = [] ∧
   gathering frame_number chunks (state (ingest s d)) ∧
   ∀ k, is_Some (default ∅ (frame_buffers s !! frame_number) !! k) ∨
        (∃ (i : nat) chunk,
           k = Z.of_nat i ∧ chunks !! i = Some chunk ∧
           d = Sender.header_of frame_number k total ++ chunk) →
        is_Some (default ∅ (frame_buffers (state (ingest s d))
                              !! frame_number) !! k)) ∨
  (emitted (events (ingest s d)) = [(frame_number, concat chunks)] ∧
   blocked_on (state (ingest s d)) 0 = true ∧
   current_frame (state (ingest s d)) = frame_number + 1).
Proof.
  intros Hg (i & chunk & Hi & ->)%elem_of_packets.
  destruct (packet_fields i chunk Hi) as [Hfields Hrest].
  rewrite (ingest_fields _ _ _ _ _ Hfields), Hrest.
  cbn [before events state]. rewrite emitted_app, emitted_packet_log.
  destruct (gathering_store s i chunk Hg Hi)
    as (Hcur1 & Hfb1 & Hftp1 & Hother1 & Hheld1).
  set (s1 := store_packet s frame_number (Z.of_nat i) total chunk) in *.
  set (held := <[Z.of_nat i := chunk]> _) in *.
  assert (Hrange : ∀ k, is_Some (held !! k) → 0 ≤ k < total).
  { intros k [c Hc]. apply Hheld1 in Hc as [Hk Hc].
    apply lookup_lt_Some in Hc. unfold len. lia. }
  destruct (reassemble_frame_cases 0 held total)
    as [Hall|(k & Hk & Hnone & _)].
  - right.
    assert (Hsize : Z.of_nat (size held) = total).
    { apply keys_complete_spec; [lia|]. unfold keys_complete.
      apply set_eq. intros k.
      rewrite elem_of_dom, elem_of_range_set. split; [apply Hrange|apply Hall]. }
    rewrite <- Hcur1 in Hfb1, Hftp1.
    destruct (cleanup_ok s1 held total Hfb1 Hftp1)
      as (s2 & Hclean & Hcur2 & Hfb2 & Hftp2).
    assert (Hmissing : frame_buffers s2 !! current_frame s2 = None).
    { rewrite Hfb2. case_decide; [done|]. apply Hother1. lia. }
    pose proof (run_emit s1 held total s2 _ Hfb1 Hftp1 Hsize Hall Hclean
                  (run_missing s2 Hmissing)) as Hrun.
    cbv zeta in Hrun. rewrite (held_chunks held Hheld1 Hall) in Hrun.
    rewrite (process_complete_frames_eq _ _ Hrun).
    cbn [before events state emitted app]. rewrite Hcur1.
    split; [done|]. split; [|lia].
    apply blocked_on_spec. rewrite Hmissing. split; [lia|].
    split; [done|]. intros t. rewrite Hftp2. case_decide; [done|].
    rewrite (proj2 (Hother1 (current_frame s2) ltac:(lia))). done.
  - left.
    assert (Hnot : head_ready s1 = false).
    { apply not_true_is_false.
      intros (pk & t & Hpk & Ht & _ & Hall)%head_ready_spec.
      rewrite Hcur1 in Hpk, Ht. simplify_eq.
      destruct (Hall k) as [? ?]; [done|congruence]. }
    destruct (loop_run_not_ready s1 _ Hnot (process_complete_frames_run s1))
      as [-> ->].
    split; [done|]. split.
    + unfold gathering. rewrite Hfb1. simpl.
      split; [done|]. split; [done|]. split; [done|]. split; [done|].
      by exists k.
    + rewrite Hfb1. simpl. intros k' [Hsome|(i' & c' & -> & Hi' & Heq)].
      * apply lookup_insert_is_Some'. by right.
      * rewrite <- (packet_index_inj _ _ _ _ Hi Hi' Heq).
        apply lookup_insert_is_Some'. by left.
Qed.

Lemma packets_withhold d :
  d ∈ packets → withholds (frame_number + 1) 0 d = true.
Proof.
  intros (i & chunk & Hi & ->)%elem_of_packets.
  destruct (packet_fields i chunk Hi) as [Hfields _].
  unfold withholds. rewrite Hfields.
  by destruct (Z.eqb_spec frame_number (frame_number + 1)); [lia|].
Qed.

Lemma gathering_ingest_all datagrams s :
  gathering frame_number chunks s →
  (∀ d, d ∈ datagrams → d ∈ packets) →
  (emitted (ingest_all s datagrams).1 = [] ∧
   gathering frame_number chunks (ingest_all s datagrams).2 ∧
   ∀ (i : nat) chunk,
     chunks !! i = Some chunk →
     Sender.header_of frame_number (Z.of_nat i) total ++ chunk ∈ datagrams →
     is_Some (default ∅ (frame_buffers (ingest_all s datagrams).2
                           !! frame_number) !! Z.of_nat i)) ∨
  emitted (ingest_all s datagrams).1 = [(frame_number, concat chunks)].
Proof.
  revert s.
  assert (Hgen : ∀ datagrams s,
    gathering frame_number chunks s →
    (∀ d, d ∈ datagrams → d ∈ packets) →
    (emitted (ingest_all s datagrams).1 = [] ∧
     gathering frame_number chunks (ingest_all s datagrams).2 ∧
     ∀ k, is_Some (default ∅ (frame_buffers s !! frame_number) !! k) ∨
          (∃ (i : nat) chunk,
             k = Z.of_nat i ∧ chunks !! i = Some chunk ∧
             Sender.header_of frame_number k total ++ chunk ∈ datagrams) →
          is_Some (default ∅ (frame_buffers (ingest_all s datagrams).2
                                !! frame_number) !! k)) ∨
    emitted (ingest_all s datagrams).1 = [(frame_number, concat chunks)]).
  { clear datagrams. intros datagrams.
    induction datagrams as [|d datagrams IH]; intros s Hg Hin.
    - left. simpl. split; [done|]. split; [done|].
      intros k [Hk|(i & c & _ & _ & Hel)]; [done|].
      by apply elem_of_nil in Hel.
    - destruct (ingest_all_cons s d datagrams) as [-> ->].
      destruct (gathering_ingest s d Hg) as [(-> & Hg1 & Hmono)|(-> & Hb & Hcur)].
      + apply Hin. by left.
      + destruct (IH (state (ingest s d)) Hg1) as [(-> & Hg2 & Hmono2) | ->].
        * intros d' Hd'. apply Hin. by right.
        * left. split; [done|]. split; [done|].
          intros k [Hk|(i & c & -> & Hi & Hel)].
          -- apply Hmono2. left. apply Hmono. by left.
          -- apply elem_of_cons in Hel as [<-|Hel].
             ++ apply Hmono2. left. apply Hmono. right. eauto.
             ++ apply Hmono2. right. eauto.
        * by right.
      + right.
        destruct (blocked_ingest_all (state (ingest s d)) 0 datagrams Hb)
          as [-> _]; [|done].
        apply forallb_forall. intros d' Hd'%list_elem_of_In.
        rewrite Hcur. apply packets_withhold, Hin. by right. }
  intros s Hg Hin.
  destruct (Hgen datagrams s Hg Hin) as [(He & Hg' & Hmono)|He];
    [left|by right].
  split; [done|]. split; [done|]. intros i c Hi Hel.
  apply Hmono. right. eauto.
Qed.

(** The complete packet set of a frame, in any order and with any
    repetitions, gives the frame once and nothing else. *)
Lemma complete_set_emits_once datagrams :
  (∀ d, d ∈ datagrams ↔ d ∈ packets) →
  emitted (ingest_all (fresh_at frame_number) datagrams).1
  = [(frame_number, concat chunks)].
Proof.
  intros Hset.
  destruct (gathering_ingest_all datagrams (fresh_at frame_number)
              fresh_gathering) as [(_ & Hg & Hall)|He]; [apply Hset| |done].
  exfalso. destruct Hg as (_ & _ & _ & _ & j & Hj & Hnone).
  assert (Hlt : (Z.to_nat j < length chunks)%nat) by (unfold len in Hj; lia).
  apply lookup_lt_is_Some in Hlt as [c Hc].
  destruct (Hall (Z.to_nat j) c Hc) as [x Hx].
  - apply Hset, elem_of_packets. eauto.
  - rewrite Z2Nat.id in Hx by lia. congruence.
Qed.
End one_frame.

Lemma covers_spec (l1 l2 : list bytes) :
  covers l1 l2 = true ↔ ∀ d, d ∈ l1 → d ∈ l2.
Proof.
  unfold covers. rewrite forallb_forall. split.
  - intros H d Hd. eapply bool_decide_eq_true, H. by apply list_elem_of_In.
  - intros H d Hd%list_elem_of_In. by apply bool_decide_eq_true, H.
Qed.

(** The datagrams of [split] are the packet set of its chunks. *)
Lemma packets_of_chunks frame_number total (g : Z → bytes) :
  0 ≤ total →
  (λ i, Sender.header_of frame_number i total ++ g i) <$> range total
  = frame_packets_of frame_number (g <$> range total).
Proof.
  intros Ht. unfold frame_packets_of, range.
  assert (Hlen : len (g <$> seqZ 0 total) = total).
  { unfold len. rewrite length_fmap, length_seqZ. lia. }
  rewrite Hlen. apply list_eq. intros n.
  rewrite list_lookup_imap, !list_lookup_fmap.
  destruct (decide (Z.of_nat n < total)) as [Hn|Hn].
  - rewrite lookup_seqZ_lt by done. simpl. by rewrite Z.add_0_l.
  - by rewrite lookup_seqZ_ge by lia.
Qed.

(** C9: the complete packet set of one frame, ingested in any order and
    with any of its packets repeated any number of times, before or after
    the frame is complete, gives what its ingestion in index order gives:
    the concatenation of the chunks, once. *)
Theorem any_order_with_duplicates_same_payload frame_number chunks datagrams :
  0 ≤ frame_number < U32_LIMIT → 1 ≤ len chunks < U32_LIMIT →
  covers datagrams (frame_packets_of frame_number chunks) = true →
  covers (frame_packets_of frame_number chunks) datagrams = true →
  emitted (ingest_all (fresh_at frame_number) datagrams).1
  = emitted (ingest_all (fresh_at frame_number)
               (frame_packets_of frame_number chunks)).1 ∧
  emitted (ingest_all (fresh_at frame_number) datagrams).1
  = [(frame_number, concat chunks)].
Proof.
  intros Hf Ht H1 H2.
  pose proof (proj1 (covers_spec _ _) H1) as H1'.
  pose proof (proj1 (covers_spec _ _) H2) as H2'.
  rewrite (complete_set_emits_once frame_number chunks Hf Ht datagrams).
  - by rewrite (complete_set_emits_once frame_number chunks Hf Ht).
  - intros d. split; [apply H1'|apply H2'].
Qed.

Lemma any_order_with_duplicates_same_payload_witness :
  let chunks := [[x61; x62]; [x63]; [x64; x65]] in
  let p0 := Sender.header_of 7 0 3 ++ [x61; x62] in
  let p1 := Sender.header_of 7 1 3 ++ [x63] in
  let p2 := Sender.header_of 7 2 3 ++ [x64; x65] in
  let datagrams := [p2; p2; p0; p2; p1; p0; p1] in
  frame_packets_of 7 chunks = [p0; p1; p2] ∧
  emitted (ingest_all (fresh_at 7) datagrams).1
  = emitted (ingest_all (fresh_at 7) (frame_packets_of 7 chunks)).1 ∧
  emitted (ingest_all (fresh_at 7) datagrams).1
  = [(7, [x61; x62; x63; x64; x65])].
Proof.
  split; [reflexivity|].
  apply (any_order_with_duplicates_same_payload 7
           [[x61; x62]; [x63]; [x64; x65]]);
    vm_compute; (reflexivity || (split; (discriminate || reflexivity))).
Defined.
End OneFrame.

Module RoundTrip.
Import Struct StructFacts Sender SenderFacts Receiver IngestFacts OneFrame.

(** C4, as the code has it: with room for a chunk and fields that fit the
    header, [split] hands over [total] packets, [total] being the ceiling
    of [len data / chunk_size]; packet [i] is the header
    [(frame_number, i, total)] followed by the [i]-th run of [chunk_size]
    bytes of the payload; the runs are contiguous and cover it, all of
    length [chunk_size] but the last, which has what is left; and [total] is
    at least 1 exactly when the payload is not empty. *)
Theorem split_packets max_packet_size header_size frame_number data :
  header_size < max_packet_size →
  0 ≤ frame_number < U32_LIMIT →
  len data ≤ (U32_LIMIT - 1) * (max_packet_size - header_size) →
  let chunk_size := max_packet_size - header_size in
  let total := (len data + max_packet_size - header_size - 1) / chunk_size in
  let sent := split max_packet_size header_size frame_number data in
  (total - 1) * chunk_size < len data ≤ total * chunk_size ∧
  failure sent = None ∧
  datagrams sent
  = (λ i, header_of frame_number i total ++ nth_chunk chunk_size data i)
      <$> range total ∧
  len (datagrams sent) = total ∧
  concat (nth_chunk chunk_size data <$> range total) = data ∧
  (∀ i, 0 ≤ i < total - 1 → len (nth_chunk chunk_size data i) = chunk_size) ∧
  (1 ≤ total →
   len (nth_chunk chunk_size data (total - 1))
   = len data - (total - 1) * chunk_size) ∧
  (1 ≤ total ↔ 1 ≤ len data).
Proof.
  intros Hroom Hf Hlen chunk_size total sent. subst chunk_size.
  assert (Htotal : total_packets_of max_packet_size header_size data
                   = Some total).
  { rewrite total_packets_of_Some by done. subst total.
    do 2 f_equal. lia. }
  pose proof (total_packets_ceiling _ _ Hroom _ _ Htotal) as Hceil.
  pose proof (total_packets_nonneg _ _ Hroom _ _ Htotal) as [H0 Hnil].
  assert (Hlim : total < U32_LIMIT) by (unfold U32_LIMIT in *; nia).
  pose proof (split_ok _ _ Hroom frame_number data total Hf Htotal Hlim)
    as Hsplit.
  fold sent in Hsplit.
  split; [done|]. rewrite Hsplit. split; [done|]. split; [done|]. split.
  { unfold len, range. simpl. rewrite length_fmap, length_seqZ. lia. }
  split; [by apply concat_all_chunks|]. split; [|split].
  - intros i Hi. rewrite length_nth_chunk by lia. nia.
  - intros H1. rewrite length_nth_chunk by lia. nia.
  - pose proof (len_nonneg data). split; intros H1.
    + destruct data; [|unfold len; simpl; lia].
      assert (total = 0) by by apply Hnil. lia.
    + destruct (decide (total = 0)) as [Hz|]; [|lia].
      apply Hnil in Hz. subst data. unfold len in H1. simpl in H1. lia.
Qed.

Lemma split_packets_witness :
  let data := [x61; x62; x63; x64; x65] in
  (3 - 1) * 2 < len data ≤ 3 * 2 ∧
  failure (split 14 12 7 data) = None ∧
  datagrams (split 14 12 7 data)
  = (λ i, header_of 7 i 3 ++ nth_chunk 2 data i) <$> range 3 ∧
  len (datagrams (split 14 12 7 data)) = 3 ∧
  concat (nth_chunk 2 data <$> range 3) = data ∧
  (∀ i, 0 ≤ i < 3 - 1 → len (nth_chunk 2 data i) = 2) ∧
  (1 ≤ 3 → len (nth_chunk 2 data (3 - 1)) = len data - (3 - 1) * 2) ∧
  (1 ≤ 3 ↔ 1 ≤ len data).
Proof.
  apply (split_packets 14 12 7 [x61; x62; x63; x64; x65]);
    vm_compute; (reflexivity || (split; (discriminate || reflexivity))
                 || discriminate).
Defined.

(** C4, as stated, fails on the empty payload: its packet count is 0 and
    no packet is sent. *)
Lemma empty_payload_sends_nothing :
  total_packets_of MAX_UDP_SIZE HEADER_SIZE [] = Some 0 ∧
  send_frame 0 [] = mkSent [] None ∧
  length (datagrams (send_frame 0 [])) = 0%nat.
Proof. vm_compute. repeat split. Qed.

(** C1, as the code has it: a payload of at least one byte, cut by [split]
    and ingested, each packet once and in order, by a reassembler with empty
    buffers whose cursor is the frame number, comes out once and
    unchanged. *)
Theorem split_then_reassemble max_packet_size header_size frame_number data :
  header_size < max_packet_size →
  0 ≤ frame_number < U32_LIMIT →
  1 ≤ len data ≤ (U32_LIMIT - 1) * (max_packet_size - header_size) →
  let sent := split max_packet_size header_size frame_number data in
  failure sent = None ∧
  emitted (ingest_all (fresh_at frame_number) (datagrams sent)).1
  = [(frame_number, data)].
Proof.
  intros Hroom Hf [Hpos Hlen] sent.
  set (chunk_size := max_packet_size - header_size).
  set (total := (len data + max_packet_size - header_size - 1) / chunk_size).
  assert (Htotal : total_packets_of max_packet_size header_size data
                   = Some total).
  { rewrite total_packets_of_Some by done. subst total chunk_size.
    do 2 f_equal. lia. }
  pose proof (total_packets_ceiling _ _ Hroom _ _ Htotal) as Hceil.
  pose proof (total_packets_nonneg _ _ Hroom _ _ Htotal) as [H0 Hnil].
  fold chunk_size in Hceil, Hlen.
  assert (Hlim : total < U32_LIMIT) by (unfold U32_LIMIT in *; nia).
  assert (H1 : 1 ≤ total).
  { destruct (decide (total = 0)) as [Hz|]; [|lia].
    apply Hnil in Hz. subst data. unfold len in Hpos. simpl in Hpos. lia. }
  pose proof (split_ok _ _ Hroom frame_number data total Hf Htotal Hlim)
    as Hsplit.
  fold sent chunk_size in Hsplit. rewrite Hsplit. split; [done|].
  cbn [datagrams].
  rewrite (packets_of_chunks frame_number total (nth_chunk chunk_size data))
    by done.
  set (chunks := nth_chunk chunk_size data <$> range total).
  assert (Hchunks : len chunks = total).
  { unfold len, chunks, range. rewrite length_fmap, length_seqZ. lia. }
  rewrite (complete_set_emits_once frame_number chunks Hf); [|lia|done].
  subst chunks chunk_size.
  by rewrite (concat_all_chunks _ _ Hroom data total Htotal).
Qed.

Lemma split_then_reassemble_witness :
  let data := [x61; x62; x63; x64; x65] in
  failure (split 14 12 7 data) = None ∧
  emitted (ingest_all (fresh_at 7) (datagrams (split 14 12 7 data))).1
  = [(7, data)].
Proof.
  apply (split_then_reassemble 14 12 7 [x61; x62; x63; x64; x65]);
    vm_compute; (reflexivity || (split; (discriminate || reflexivity))
                 || discriminate).
Defined.

(** C1, as stated, fails for [L = 0]: nothing is sent, so nothing is
    emitted. *)
Lemma empty_payload_is_never_emitted :
  datagrams (send_frame 0 []) = [] ∧
  emitted (ingest_all (fresh_at 0) (datagrams (send_frame 0 []))).1 = [] ∧
  (ingest_all (fresh_at 0) (datagrams (send_frame 0 []))).2 = fresh_at 0.
Proof. vm_compute. repeat split. Qed.

(** With the constants of the source no packet exceeds the buffer of
    [recvfrom]: [check_socket] reads every packet whole. *)
Lemma send_frame_fits frame_number data :
  Forall (λ d, len d ≤ MAX_UDP_SIZE) (datagrams (send_frame frame_number data)).
Proof.
  unfold send_frame, split.
  destruct (total_packets_of _ _ _) as [total|]; [|by constructor].
  induction (range total) as [|i l IH]; [by constructor|].
  simpl. destruct (pack_III frame_number i total) as [h|] eqn:Hh;
    [|by constructor].
  simpl. constructor; [|done].
  rewrite len_app. unfold len at 1. rewrite (length_pack_III _ _ _ _ Hh).
  unfold chunk_of, py_slice, len. rewrite length_take, length_drop.
  unfold MAX_UDP_SIZE, HEADER_SIZE, slice_index, len.
  repeat match goal with
         | |- context [?a <? ?b] => destruct (Z.ltb_spec a b)
         end; lia.
Qed.
End RoundTrip.

Module StreamFacts.
Import Struct StructFacts Sender SenderFacts Receiver ReceiverFacts LoopFacts.
Import IngestFacts Protocol OneFrame Video.

Implicit Types (s : State) (r : Run) (pk : gmap Z bytes) (data : bytes).

Lemma ingest_all_app s l1 l2 :
  ingest_all s (l1 ++ l2)
  = ((ingest_all s l1).1 ++ (ingest_all (ingest_all s l1).2 l2).1,
     (ingest_all (ingest_all s l1).2 l2).2).
Proof.
  revert s. induction l1 as [|d l1 IH]; intros s.
  - simpl. by destruct (ingest_all s l2).
  - cbn [app ingest_all]. rewrite IH.
    destruct (ingest_all (state (ingest s d)) l1) as [e1 s1]. cbn [fst snd].
    destruct (ingest_all s1 l2) as [e2 s2]. cbn [fst snd].
    by rewrite !app_assoc.
Qed.

Section one_frame_state.
Variable frame_number : Z.
Variable chunks : list bytes.
Hypothesis frame_number_u32 : 0 ≤ frame_number < U32_LIMIT.
Hypothesis total_u32 : 1 ≤ len chunks < U32_LIMIT.

Local Abbreviation packets := (frame_packets_of frame_number chunks).

Lemma NoDup_packets : NoDup packets.
Proof.
  apply NoDup_alt. intros i j d Hi Hj.
  unfold frame_packets_of in Hi, Hj.
  apply list_lookup_imap_Some in Hi as (c & Hc & ->).
  apply list_lookup_imap_Some in Hj as (c' & Hc' & Heq).
  by eapply (packet_index_inj frame_number chunks).
Qed.

(** The packet that completes the frame leaves nothing behind. *)
Lemma gathering_emit_state s d :
  gathering frame_number chunks s → d ∈ packets →
  emitted (events (ingest s d)) ≠ [] →
  state (ingest s d) = fresh_at (frame_number + 1).
Proof.
  intros Hg Hd Hemit.
  apply (elem_of_packets frame_number chunks frame_number_u32 total_u32) in Hd as (i & chunk & Hi & ->).
  destruct (packet_fields frame_number chunks frame_number_u32 total_u32
              i chunk Hi) as [Hfields Hrest].
  rewrite (ingest_fields _ _ _ _ _ Hfields), Hrest in Hemit |- *.
  cbn [before events state] in Hemit |- *.
  rewrite emitted_app, emitted_packet_log in Hemit. simpl in Hemit.
  destruct (gathering_store frame_number chunks s i chunk Hg Hi)
    as (Hcur1 & Hfb1 & Hftp1 & Hother1 & Hheld1).
  set (s1 := store_packet s frame_number (Z.of_nat i) (len chunks) chunk) in *.
  destruct (head_ready s1) eqn:Hready.
  2: { destruct (loop_run_not_ready s1 _ Hready
                   (process_complete_frames_run s1)) as [He _]. done. }
  apply head_ready_spec in Hready as (pk & t & Hpk & Ht & Hsize & Hall).
  destruct (cleanup_ok s1 pk t Hpk Ht) as (s2 & Hclean & Hcur2 & Hfb2 & Hftp2).
  assert (Hs2 : s2 = fresh_at (frame_number + 1)).
  { destruct s2 as [fb2 ftp2 cur2]. simpl in *. unfold fresh_at.
    f_equal; [| |lia].
    - apply map_eq. intros f. rewrite Hfb2, lookup_empty.
      case_decide as Hd; [done|]. apply Hother1. lia.
    - apply map_eq. intros f. rewrite Hftp2, lookup_empty.
      case_decide as Hd; [done|]. apply Hother1. lia. }
  pose proof (run_emit s1 pk t s2 _ Hpk Ht Hsize Hall Hclean
                (run_missing s2 ltac:(by rewrite Hs2))) as Hrun.
  rewrite (process_complete_frames_eq _ _ Hrun). by rewrite <- Hs2.
Qed.

(** A complete packet set whose last datagram occurs once: the frame is
    emitted and every buffer is released. *)
Lemma complete_set_last datagrams d :
  (∀ x, x ∈ datagrams ++ [d] ↔ x ∈ packets) → d ∉ datagrams →
  emitted (ingest_all (fresh_at frame_number) (datagrams ++ [d])).1
  = [(frame_number, concat chunks)] ∧
  (ingest_all (fresh_at frame_number) (datagrams ++ [d])).2
  = fresh_at (frame_number + 1).
Proof.
  intros Hset Hnotin.
  pose proof (complete_set_emits_once frame_number chunks frame_number_u32
                total_u32 _ Hset) as Hall.
  split; [done|].
  rewrite ingest_all_app in Hall |- *. cbn [fst snd] in Hall |- *.
  rewrite emitted_app in Hall.
  assert (Hd : d ∈ packets) by (apply Hset, elem_of_app; right; by left).
  pose proof Hd as (i & chunk & Hi & Hdeq)%(elem_of_packets frame_number chunks frame_number_u32 total_u32).
  assert (Hblocked : emitted (ingest_all (fresh_at frame_number) datagrams).1 = []).
  { apply (blocked_ingest_all (fresh_at frame_number) (Z.of_nat i)).
    - apply blocked_on_spec. simpl. rewrite !lookup_empty.
      split; [lia|]. by split.
    - apply forallb_forall. intros x Hx%list_elem_of_In.
      assert (Hxp : x ∈ packets) by (apply Hset, elem_of_app; by left).
      apply (elem_of_packets frame_number chunks frame_number_u32 total_u32) in Hxp as (j & c & Hj & ->).
      destruct (packet_fields frame_number chunks frame_number_u32 total_u32
                  j c Hj) as [Hf _].
      unfold withholds. rewrite Hf. simpl. rewrite Z.eqb_refl.
      apply andb_true_iff. split.
      + apply negb_true_iff, Z.eqb_neq. intros Heq.
        assert (j = i) as -> by lia.
        assert (c = chunk) as -> by congruence. by subst d.
      + apply Z.ltb_lt. apply lookup_lt_Some in Hi. unfold len. lia. }
  rewrite Hblocked in Hall. cbn [app] in Hall.
  destruct (gathering_ingest_all frame_number chunks frame_number_u32
              total_u32 datagrams (fresh_at frame_number)
              (fresh_gathering frame_number chunks total_u32))
    as [(_ & Hg & _)|He].
  - intros x Hx. apply Hset, elem_of_app. by left.
  - set (s1 := (ingest_all (fresh_at frame_number) datagrams).2) in *.
    destruct (ingest_all_cons s1 d []) as [He Hs].
    rewrite He in Hall. rewrite Hs. cbn [ingest_all fst snd emitted] in Hall |- *.
    rewrite app_nil_r in Hall.
    apply gathering_emit_state; [done|done|]. by rewrite Hall.
  - by rewrite Hblocked in He.
Qed.

(** Any arrangement of the packet set, each packet once. *)
Lemma permuted_set_releases datagrams :
  datagrams ≡ₚ packets →
  emitted (ingest_all (fresh_at frame_number) datagrams).1
  = [(frame_number, concat chunks)] ∧
  (ingest_all (fresh_at frame_number) datagrams).2
  = fresh_at (frame_number + 1).
Proof.
  intros Hperm.
  assert (Hnodup : NoDup datagrams) by (rewrite Hperm; apply NoDup_packets).
  assert (Hne : datagrams ≠ []).
  { intros ->. apply Permutation_nil_l in Hperm.
    unfold frame_packets_of in Hperm. apply (f_equal length) in Hperm.
    rewrite length_imap in Hperm. unfold len in total_u32. simpl in Hperm. lia. }
  destruct (exists_last Hne) as (init & d & ->).
  apply NoDup_app in Hnodup as (_ & Hdisj & _).
  apply complete_set_last.
  - intros x. by rewrite Hperm.
  - intros Hin. eapply Hdisj; [done|]. by left.
Qed.
End one_frame_state.

(** *** What [send_frame] and the frame loop hand over *)

Lemma send_loop_datagram max_packet_size header_size frame_number total data
    indices d :
  d ∈ datagrams (send_loop max_packet_size header_size frame_number total data
                   indices) →
  ∃ i, i ∈ indices ∧
       0 ≤ frame_number < U32_LIMIT ∧ 0 ≤ i < U32_LIMIT ∧
       0 ≤ total < U32_LIMIT ∧
       d = header_of frame_number i total
           ++ chunk_of max_packet_size header_size data i.
Proof.
  induction indices as [|i indices IH]; simpl; [by intros ?%elem_of_nil|].
  destruct (pack_III frame_number i total) as [h|] eqn:Hh;
    [|by intros ?%elem_of_nil].
  apply pack_III_inv in Hh as (-> & Hf & Hi & Ht). simpl.
  intros [->|Hd]%elem_of_cons.
  - exists i. split; [by left|done].
  - destruct (IH Hd) as (j & Hj & Hrest). exists j. split; [by right|done].
Qed.

Lemma send_frame_datagram frame_number data d :
  d ∈ datagrams (send_frame frame_number data) →
  ∃ i total,
    0 ≤ frame_number < U32_LIMIT ∧ 0 ≤ i < total ∧ total < U32_LIMIT ∧
    d = header_of frame_number i total
        ++ chunk_of MAX_UDP_SIZE HEADER_SIZE data i.
Proof.
  unfold send_frame, split.
  destruct (total_packets_of _ _ _) as [total|]; [|by intros ?%elem_of_nil].
  intros (i & Hi & Hf & _ & Ht & ->)%send_loop_datagram.
  apply elem_of_seqZ in Hi. exists i, total. split; [done|]. split; [lia|].
  split; [lia|done].
Qed.

Lemma send_frame_fields frame_number data d :
  d ∈ datagrams (send_frame frame_number data) →
  ∃ i total, header_fields d = Some (frame_number, i, total) ∧ 0 ≤ i < total.
Proof.
  intros (i & total & Hf & Hi & Ht & ->)%send_frame_datagram.
  exists i, total. split; [|done].
  apply header_fields_packet; [done| |]; lia.
Qed.

Lemma sendable_spec data :
  sendable data = true ↔
  1 ≤ len data ≤ (U32_LIMIT - 1) * (MAX_UDP_SIZE - HEADER_SIZE).
Proof. unfold sendable. rewrite andb_true_iff, Z.leb_le, Z.leb_le. done. Qed.

(** One frame, sent and then ingested in order by a receiver with empty
    buffers waiting for it. *)
Lemma send_frame_ingested frame_number data :
  0 ≤ frame_number < U32_LIMIT → sendable data = true →
  failure (send_frame frame_number data) = None ∧
  emitted (ingest_all (fresh_at frame_number)
             (datagrams (send_frame frame_number data))).1
  = [(frame_number, data)] ∧
  (ingest_all (fresh_at frame_number)
     (datagrams (send_frame frame_number data))).2
  = fresh_at (frame_number + 1).
Proof.
  intros Hf [Hpos Hlen]%sendable_spec. unfold send_frame.
  assert (Hroom : HEADER_SIZE < MAX_UDP_SIZE) by done.
  set (total := (len data + (MAX_UDP_SIZE - HEADER_SIZE) - 1)
                / (MAX_UDP_SIZE - HEADER_SIZE)).
  pose proof (total_packets_of_Some _ _ Hroom data) as Htotal.
  fold total in Htotal.
  pose proof (total_packets_ceiling _ _ Hroom _ _ Htotal) as Hceil.
  pose proof (total_packets_nonneg _ _ Hroom _ _ Htotal) as [H0 Hnil].
  assert (Hlim : total < U32_LIMIT)
    by (unfold U32_LIMIT, MAX_UDP_SIZE, HEADER_SIZE in *; nia).
  assert (H1 : 1 ≤ total).
  { destruct (decide (total = 0)) as [Hz|]; [|lia].
    apply Hnil in Hz. subst data. unfold len in Hpos. simpl in Hpos. lia. }
  rewrite (split_ok _ _ Hroom frame_number data total Hf Htotal Hlim).
  split; [done|]. cbn [datagrams].
  rewrite (packets_of_chunks frame_number total
             (nth_chunk (MAX_UDP_SIZE - HEADER_SIZE) data)) by lia.
  set (chunks := nth_chunk (MAX_UDP_SIZE - HEADER_SIZE) data <$> range total).
  assert (Hchunks : len chunks = total).
  { unfold len, chunks, range. rewrite length_fmap, length_seqZ. lia. }
  assert (Hconcat : concat chunks = data)
    by apply (concat_all_chunks _ _ Hroom data total Htotal).
  rewrite <- Hconcat at 1.
  apply permuted_set_releases; [done|lia|done].
Qed.
End StreamFacts.

Module StreamTheorems.
Import Struct StructFacts Sender SenderFacts Receiver ReceiverFacts LoopFacts.
Import IngestFacts Protocol OneFrame Video StreamFacts.

Implicit Types (s : State) (r : Run) (pk : gmap Z bytes) (data : bytes).

Lemma send_video_frames_app start good rest :
  forallb sendable good = true → 0 ≤ start →
  start + len good ≤ U32_LIMIT →
  send_video_frames start (good ++ rest)
  = mkSent (datagrams (send_video_frames start good)
            ++ datagrams (send_video_frames (start + len good) rest))
      (failure (send_video_frames (start + len good) rest)) ∧
  failure (send_video_frames start good) = None.
Proof.
  revert start. induction good as [|data good IH]; intros start Hgood H0 Hlim.
  - simpl. unfold len. simpl. rewrite Z.add_0_r.
    by destruct (send_video_frames start rest).
  - cbn [forallb] in Hgood. apply andb_true_iff in Hgood as [Hdata Hgood].
    unfold len in Hlim. cbn [length] in Hlim.
    destruct (send_frame_ingested start data ltac:(lia) Hdata) as [Hfail _].
    cbn [app send_video_frames]. rewrite Hfail.
    destruct (IH (start + 1) Hgood ltac:(lia) ltac:(unfold len; lia))
      as [-> ->].
    cbn [datagrams failure]. unfold len. cbn [length].
    replace (start + 1 + Z.of_nat (length good))
      with (start + Z.of_nat (S (length good))) by lia.
    by rewrite app_assoc.
Qed.

Lemma stream_ingested start payloads :
  0 ≤ start → start + len payloads ≤ U32_LIMIT →
  forallb sendable payloads = true →
  failure (send_video_frames start payloads) = None ∧
  emitted (ingest_all (fresh_at start)
             (datagrams (send_video_frames start payloads))).1
  = zip (seqZ start (len payloads)) payloads ∧
  (ingest_all (fresh_at start)
     (datagrams (send_video_frames start payloads))).2
  = fresh_at (start + len payloads).
Proof.
  revert start. induction payloads as [|data payloads IH];
    intros start H0 Hlim Hall.
  - simpl. unfold len. simpl. by rewrite Z.add_0_r.
  - cbn [forallb] in Hall. apply andb_true_iff in Hall as [Hdata Hall].
    unfold len in Hlim |- *. cbn [length] in Hlim |- *.
    destruct (send_frame_ingested start data ltac:(lia) Hdata)
      as (Hfail & He & Hs).
    destruct (IH (start + 1) ltac:(lia) ltac:(unfold len; lia) Hall)
      as (IHf & IHe & IHs).
    cbn [send_video_frames]. rewrite Hfail. cbn [datagrams failure].
    split; [done|]. rewrite ingest_all_app. cbn [fst snd].
    rewrite emitted_app, He, Hs, IHe, IHs. unfold len.
    split; [|f_equal; lia].
    rewrite (seqZ_cons start) by lia.
    replace (Z.pred (Z.of_nat (S (length payloads))))
      with (Z.of_nat (length payloads)) by lia.
    by replace (Z.succ start) with (start + 1) by lia.
Qed.

(** Every datagram of the frame loop carries a frame number at or after
    the one the loop started with. *)
Lemma send_video_frames_fields start payloads d :
  d ∈ datagrams (send_video_frames start payloads) →
  ∃ f i total, header_fields d = Some (f, i, total) ∧ start ≤ f ∧ 0 ≤ i < total.
Proof.
  revert start. induction payloads as [|data payloads IH]; intros start;
    [by intros ?%elem_of_nil|].
  cbn [send_video_frames].
  destruct (failure (send_frame start data)) eqn:Hfail.
  - intros (i & total & Hf & Hi)%send_frame_fields. exists start, i, total.
    split; [done|]. split; [lia|done].
  - cbn [datagrams]. intros [Hd|Hd]%elem_of_app.
    + apply send_frame_fields in Hd as (i & total & Hf & Hi).
      exists start, i, total. split; [done|]. split; [lia|done].
    + destruct (IH _ Hd) as (f & i & total & Hf & Hge & Hi).
      exists f, i, total. split; [done|]. split; [lia|done].
Qed.
End StreamTheorems.

Module PollFacts.
Import Struct StructFacts Sender SenderFacts Receiver ReceiverFacts LoopFacts.
Import IngestFacts Protocol OneFrame Video StreamFacts StreamTheorems Poll.

Implicit Types (s : State) (r : Run) (pk : gmap Z bytes) (data : bytes).

(** *** The records a run can hold *)

Lemma forallb_app_true {A} (f : A → bool) l1 l2 :
  forallb f (l1 ++ l2) = true ↔ forallb f l1 = true ∧ forallb f l2 = true.
Proof. by rewrite forallb_app, andb_true_iff. Qed.

Lemma is_frame_complete_log (f : Event → bool) cur pk t :
  (∀ have missing, f (Log INFO (FrameIncomplete cur have t missing)) = true) →
  forallb f (_is_frame_complete cur pk t).2 = true.
Proof.
  intros Hf. unfold _is_frame_complete. case_bool_decide; simpl; [|done].
  by rewrite Hf.
Qed.

Lemma packet_log_forallb (f : Event → bool) fn p t :
  (∀ lvl a b, f (Log lvl (StartOfFrame a b)) = true) →
  (∀ lvl a b c, f (Log lvl (EndOfFrame a b c)) = true) →
  forallb f (packet_log fn p t) = true.
Proof.
  intros H1 H2. unfold packet_log.
  destruct (p =? 0); [by simpl; rewrite H1|].
  destruct (p =? t - 1); [by simpl; rewrite H2|done].
Qed.

(** *** The two dictionaries keep the same keys *)

Lemma same_keys_spec s :
  same_keys s ↔
  ∀ f, is_Some (frame_buffers s !! f) ↔ is_Some (frame_total_packets s !! f).
Proof.
  unfold same_keys. rewrite set_eq. by setoid_rewrite elem_of_dom.
Qed.

Lemma store_packet_same_keys s f p t chunk :
  same_keys s → same_keys (store_packet s f p t chunk).
Proof.
  rewrite !same_keys_spec. intros Hs f'. unfold store_packet. simpl.
  destruct (decide (f' = f)) as [->|Hne].
  - rewrite !lookup_insert_eq. split; by eexists.
  - rewrite !lookup_insert_ne by done. apply Hs.
Qed.

Lemma loop_run_same_keys s r :
  loop_run s r → same_keys s →
  same_keys (state r) ∧
  forallb (λ ev, negb (is_no_total_count ev)) (events r) = true.
Proof.
  induction 1 as [| s pk Hpk Hnone | s pk t | s pk t k
                 |s pk t s' r Hpk Ht Hsize Hall Hclean Hrun IH];
    intros Hkeys; cbn [state events before].
  - done.
  - exfalso. pose proof (proj1 (same_keys_spec _) Hkeys) as Hk.
    destruct (proj1 (Hk (current_frame s))) as [? ?]; [by eexists|].
    congruence.
  - split; [done|]. by apply is_frame_complete_log.
  - done.
  - destruct (cleanup_ok s pk t Hpk Ht) as (s'' & Hclean' & _ & Hfb & Hftp).
    rewrite Hclean in Hclean'. injection Hclean' as <-.
    destruct IH as [IHk IHe].
    { apply same_keys_spec. intros f. rewrite Hfb, Hftp.
      pose proof (proj1 (same_keys_spec _) Hkeys f) as Hk.
      repeat case_decide; split; intros Hx;
        try (by destruct Hx); try tauto; exfalso; tauto. }
    split; [done|]. by simpl.
Qed.

Lemma ingest_same_keys s data :
  same_keys s →
  same_keys (state (ingest s data)) ∧
  forallb (λ ev, negb (is_no_total_count ev)) (events (ingest s data)) = true.
Proof.
  intros Hkeys.
  destruct (header_fields data) as [[[f p] t]|] eqn:Hfields.
  - rewrite (ingest_fields _ _ _ _ _ Hfields). cbn [before state events].
    destruct (loop_run_same_keys _ _
                (process_complete_frames_run
                   (store_packet s f p t
                      (py_slice data HEADER_SIZE (len data)))))
      as [Hk He]; [by apply store_packet_same_keys|].
    split; [done|]. apply forallb_app_true. split; [|done].
    by apply packet_log_forallb.
  - by rewrite ingest_short.
Qed.

Lemma ingest_all_same_keys s datagrams :
  same_keys s →
  same_keys (ingest_all s datagrams).2 ∧
  forallb (λ ev, negb (is_no_total_count ev)) (ingest_all s datagrams).1 = true.
Proof.
  revert s. induction datagrams as [|d datagrams IH]; intros s Hkeys; [done|].
  cbn [ingest_all].
  destruct (ingest_same_keys s d Hkeys) as [Hk He].
  destruct (IH _ Hk) as [IHk IHe].
  destruct (ingest_all (state (ingest s d)) datagrams) as [evs s'].
  cbn [fst snd] in *. split; [done|].
  rewrite !forallb_app_true. split; [done|]. split; [|done].
  by destruct (raised (ingest s d)).
Qed.

(** *** Runs that emit nothing *)

Lemma loop_run_silent s r :
  loop_run s r → emitted (events r) = [] →
  state r = s ∧ head_ready s = false.
Proof.
  intros Hrun Hsilent. destruct (head_ready s) eqn:Hready.
  - exfalso.
    apply head_ready_spec in Hready as (pk & t & Hpk & Ht & Hsize & Hall).
    destruct (cleanup_ok s pk t Hpk Ht) as (s' & Hclean & _).
    pose proof (run_emit s pk t s' _ Hpk Ht Hsize Hall Hclean
                  (process_complete_frames_run s')) as Hrun'.
    cbv zeta in Hrun'. rewrite (loop_run_det _ _ _ Hrun Hrun') in Hsilent.
    done.
  - by destruct (loop_run_not_ready s r Hready Hrun).
Qed.

Lemma store_packet_idem s f p t chunk :
  store_packet (store_packet s f p t chunk) f p t chunk
  = store_packet s f p t chunk.
Proof.
  unfold store_packet. simpl. rewrite !lookup_insert_eq. simpl.
  by rewrite !insert_insert_eq.
Qed.

Lemma store_packet_off_head s f p t chunk :
  f ≠ current_frame s →
  head_ready (store_packet s f p t chunk) = head_ready s.
Proof.
  intros Hne. unfold head_ready, store_packet. simpl.
  by rewrite !lookup_insert_ne by done.
Qed.

(** *** Conforming traffic *)

Lemma fresh_conform totals cursor : buffers_conform totals (fresh_at cursor).
Proof. intros f pk. simpl. by rewrite lookup_empty. Qed.

Lemma store_packet_conform totals s data f p t :
  buffers_conform totals s → conforms totals data = true →
  header_fields data = Some (f, p, t) →
  ∀ chunk, buffers_conform totals (store_packet s f p t chunk).
Proof.
  intros Hs Hc Hfields chunk.
  pose proof (header_fields_u32 _ _ _ _ Hfields) as (_ & _ & Hp & _).
  unfold conforms in Hc. rewrite Hfields in Hc.
  apply andb_true_iff in Hc as [->%Z.eqb_eq Hlt%Z.ltb_lt].
  intros f' pk. unfold store_packet. simpl.
  destruct (decide (f' = f)) as [->|Hne].
  - rewrite !lookup_insert_eq. intros [= <-]. split; [done|].
    intros k [Hk|Hk]%lookup_insert_is_Some'; [subst; lia|].
    destruct (frame_buffers s !! f) as [pk|] eqn:Hpk; simpl in Hk.
    + by apply (Hs f pk).
    + rewrite lookup_empty in Hk. by destruct Hk.
  - rewrite !lookup_insert_ne by done. apply Hs.
Qed.

Lemma loop_run_conform totals s r :
  loop_run s r → buffers_conform totals s →
  buffers_conform totals (state r) ∧ raised r = None.
Proof.
  induction 1 as [| | | s pk t k Hpk Ht Hsize Hk Hnone Hbefore
                 |s pk t s' r Hpk Ht Hsize Hall Hclean Hrun IH];
    intros Hs; cbn [state raised before]; try done.
  - exfalso. destruct (Hs _ _ Hpk) as [Ht' Hrange].
    rewrite Ht in Ht'. injection Ht' as ->.
    destruct (count_complete_in_range pk (totals (current_frame s))
                Hrange Hsize k Hk) as [? ?]. congruence.
  - apply IH.
    destruct (cleanup_ok s pk t Hpk Ht) as (s'' & Hclean' & _ & Hfb & Hftp).
    rewrite Hclean in Hclean'. injection Hclean' as <-.
    intros f pk'. rewrite Hfb, Hftp. case_decide as Hd; [done|].
    intros Hpk'. rewrite decide_False by tauto. by apply Hs.
Qed.

Lemma ingest_conform totals s data :
  buffers_conform totals s → conforms totals data = true →
  buffers_conform totals (state (ingest s data)) ∧
  raised (ingest s data) = None.
Proof.
  intros Hs Hc. destruct (header_fields data) as [[[f p] t]|] eqn:Hfields.
  - rewrite (ingest_fields _ _ _ _ _ Hfields). cbn [before state raised].
    eapply loop_run_conform; [apply process_complete_frames_run|].
    by eapply store_packet_conform.
  - by rewrite ingest_short.
Qed.

Lemma header_fields_received d :
  header_fields (take (Z.to_nat MAX_UDP_SIZE) d) = header_fields d.
Proof.
  unfold header_fields, HEADER_SIZE, MAX_UDP_SIZE.
  assert (Hlen : len (take (Z.to_nat 1400) d) <? 12 = (len d <? 12)).
  { unfold len. rewrite length_take.
    destruct (Z.ltb_spec (Z.of_nat (length d)) 12);
      [apply Z.ltb_lt|apply Z.ltb_ge]; lia. }
  rewrite Hlen. destruct (len d <? 12); [done|].
  rewrite !py_slice_prefix by lia. rewrite take_take. by f_equal.
Qed.

(** With conforming traffic no ingest raises: one call of [check_socket]
    reads the whole queue, and does what the ingests one by one do. *)
Lemma check_socket_conforming totals s queue :
  buffers_conform totals s →
  forallb (conforms totals) queue = true →
  check_socket s queue
  = (mkRun (ingest_all s (received queue)).1
       (ingest_all s (received queue)).2 None, []) ∧
  forallb (λ ev, negb (is_check_socket_error ev))
    (ingest_all s (received queue)).1 = true ∧
  buffers_conform totals (ingest_all s (received queue)).2.
Proof.
  revert s. induction queue as [|d queue IH]; intros s Hs Hall; [done|].
  cbn [forallb] in Hall. apply andb_true_iff in Hall as [Hd Hall].
  assert (Hd' : conforms totals (take (Z.to_nat MAX_UDP_SIZE) d) = true).
  { unfold conforms in *. by rewrite header_fields_received. }
  destruct (ingest_conform totals s _ Hs Hd') as [Hs' Hr].
  destruct (IH _ Hs' Hall) as (IHc & IHe & IHs).
  cbn [check_socket received fmap list_fmap ingest_all].
  rewrite Hr, IHc. unfold received in *.
  destruct (ingest_all (state (ingest s (take (Z.to_nat MAX_UDP_SIZE) d)))
              (take (Z.to_nat MAX_UDP_SIZE) <$> queue)) as [evs s'].
  cbn [fst snd before events state raised app] in *.
  split; [done|]. split; [|done].
  apply forallb_app_true. split; [|done].
  clear -s d. set (data := take _ d). clearbody data.
  destruct (header_fields data) as [[[f p] t]|] eqn:Hfields.
  - rewrite (ingest_fields _ _ _ _ _ Hfields). cbn [before events].
    apply forallb_app_true. split; [by apply packet_log_forallb|].
    generalize (process_complete_frames_run
                  (store_packet s f p t (py_slice data HEADER_SIZE (len data)))).
    generalize (process_complete_frames
                  (store_packet s f p t (py_slice data HEADER_SIZE (len data)))).
    generalize (store_packet s f p t (py_slice data HEADER_SIZE (len data))).
    intros s0 r0 Hrun. induction Hrun; cbn [events before]; try done.
    by apply is_frame_complete_log.
  - by rewrite ingest_short.
Qed.

(** *** One call of [check_socket], and the calls of the timer *)

Lemma check_socket_ingested s queue :
  ∃ read,
    queue = read ++ (check_socket s queue).2 ∧
    ingest_all s (received read)
    = (events (check_socket s queue).1, state (check_socket s queue).1) ∧
    raised (check_socket s queue).1 = None ∧
    (queue ≠ [] → read ≠ []).
Proof.
  revert s. induction queue as [|d queue IH]; intros s.
  - exists []. by simpl.
  - cbn [check_socket].
    destruct (raised (ingest s (take (Z.to_nat MAX_UDP_SIZE) d))) as [e|] eqn:Hr.
    + exists [d]. cbn [fst snd app events state raised received fmap list_fmap
                        ingest_all]. rewrite Hr. by rewrite app_nil_r.
    + destruct (IH (state (ingest s (take (Z.to_nat MAX_UDP_SIZE) d))))
        as (read & Hq & Hi & Hraised & _).
      destruct (check_socket _ queue) as [r' q']. cbn [fst snd] in *.
      exists (d :: read). split; [by rewrite Hq at 1|].
      cbn [received fmap list_fmap ingest_all]. rewrite Hr.
      unfold received in Hi. rewrite Hi. cbn [before events state raised].
      by rewrite app_nil_l.
Qed.
End PollFacts.

Module EndToEnd.
Import Struct StructFacts Sender SenderFacts Receiver ReceiverFacts LoopFacts.
Import IngestFacts Protocol OneFrame Video StreamFacts StreamTheorems Poll.
Import PollFacts.

Implicit Types (s : State) (r : Run) (pk : gmap Z bytes) (data : bytes).

(** The packet count [send_frame] computes for a payload. *)
Lemma send_frame_total frame_number data d :
  d ∈ datagrams (send_frame frame_number data) →
  ∃ i total,
    total_packets_of MAX_UDP_SIZE HEADER_SIZE data = Some total ∧
    header_fields d = Some (frame_number, i, total) ∧ 0 ≤ i < total ∧
    HEADER_SIZE ≤ len d ≤ MAX_UDP_SIZE.
Proof.
  unfold send_frame, split.
  destruct (total_packets_of _ _ _) as [total|] eqn:Htotal;
    [|by intros ?%elem_of_nil].
  intros (i & Hi & Hf & Hiu & Ht & ->)%send_loop_datagram.
  apply elem_of_seqZ in Hi. exists i, total. split; [done|].
  split; [by apply header_fields_packet|]. split; [lia|].
  rewrite len_app. change (len (header_of frame_number i total)) with 12.
  unfold chunk_of, py_slice, len. rewrite length_take, length_drop.
  unfold MAX_UDP_SIZE, HEADER_SIZE, slice_index, len.
  repeat match goal with
         | |- context [?a <? ?b] => destruct (Z.ltb_spec a b)
         end; lia.
Qed.

Lemma send_video_frames_datagram start payloads d :
  d ∈ datagrams (send_video_frames start payloads) →
  ∃ (n : nat) data i total,
    payloads !! n = Some data ∧
    total_packets_of MAX_UDP_SIZE HEADER_SIZE data = Some total ∧
    header_fields d = Some (start + Z.of_nat n, i, total) ∧ 0 ≤ i < total ∧
    HEADER_SIZE ≤ len d ≤ MAX_UDP_SIZE.
Proof.
  revert start. induction payloads as [|data payloads IH]; intros start;
    [by intros ?%elem_of_nil|].
  cbn [send_video_frames].
  assert (Hhere : d ∈ datagrams (send_frame start data) →
    ∃ (n : nat) data0 i total,
      (data :: payloads) !! n = Some data0 ∧
      total_packets_of MAX_UDP_SIZE HEADER_SIZE data0 = Some total ∧
      header_fields d = Some (start + Z.of_nat n, i, total) ∧ 0 ≤ i < total ∧
      HEADER_SIZE ≤ len d ≤ MAX_UDP_SIZE).
  { intros (i & total & Ht & Hf & Hi & Hlen)%send_frame_total.
    exists 0%nat, data, i, total. rewrite Z.add_0_r. done. }
  destruct (failure (send_frame start data)) eqn:Hfail; [done|].
  cbn [datagrams]. intros [Hd|Hd]%elem_of_app; [by apply Hhere|].
  destruct (IH _ Hd) as (n & data0 & i & total & Hn & Ht & Hf & Hi & Hlen).
  exists (S n), data0, i, total. split; [done|]. split; [done|].
  split; [|done]. rewrite Hf. do 3 f_equal. lia.
Qed.

Lemma stream_conforms start payloads :
  let queue := datagrams (send_video_frames start payloads) in
  forallb (conforms (stream_totals start payloads)) queue = true ∧
  received queue = queue.
Proof.
  cbv zeta. split.
  - apply forallb_forall. intros d Hd%list_elem_of_In.
    apply send_video_frames_datagram
      in Hd as (n & data & i & total & Hn & Ht & Hf & Hi & _).
    unfold conforms, stream_totals. rewrite Hf.
    replace (start + Z.of_nat n - start) with (Z.of_nat n) by lia.
    rewrite Nat2Z.id, Hn, Ht. simpl.
    apply andb_true_iff. split; [apply Z.eqb_refl|apply Z.ltb_lt; lia].
  - unfold received. apply list_eq. intros k. rewrite list_lookup_fmap.
    destruct (datagrams (send_video_frames start payloads) !! k) as [d|] eqn:Hk;
      [|done].
    simpl. f_equal. apply take_ge.
    assert (Hd : d ∈ datagrams (send_video_frames start payloads))
      by (apply list_elem_of_lookup; eauto).
    apply send_video_frames_datagram in Hd as (? & ? & ? & ? & _ & _ & _ & _ & Hlen).
    unfold len, MAX_UDP_SIZE in *. lia.
Qed.
End EndToEnd.

Module Extras.
Import Struct StructFacts Sender SenderFacts Receiver ReceiverFacts LoopFacts.
Import IngestFacts Protocol OneFrame Video StreamFacts StreamTheorems Poll.
Import PollFacts EndToEnd.

Implicit Types (s : State) (r : Run) (pk : gmap Z bytes) (data : bytes).

(** X1: a packet the sender builds, [pack('>III', ...) + chunk], is taken
    apart by the receiver into the same three fields and the same chunk. *)
Theorem packet_wire_round_trip frame_number packet_num total_packets header
    chunk :
  pack_III frame_number packet_num total_packets = Some header →
  length header = 12%nat ∧
  unpack_III (py_slice (header ++ chunk) 0 HEADER_SIZE)
  = Some (frame_number, packet_num, total_packets) ∧
  py_slice (header ++ chunk) HEADER_SIZE (len (header ++ chunk)) = chunk.
Proof.
  intros Hpack. pose proof (length_pack_III _ _ _ _ Hpack) as Hlen.
  apply pack_III_inv in Hpack as (-> & Hf & Hp & Ht).
  destruct (header_fields_packet frame_number packet_num total_packets chunk
              Hf Hp Ht) as [Hfields Hrest].
  split; [done|]. split; [|done].
  unfold header_fields in Hfields.
  by destruct (len _ <? HEADER_SIZE).
Qed.

Lemma packet_wire_round_trip_witness :
  let header := be32 258 ++ be32 3 ++ be32 65536 in
  pack_III 258 3 65536 = Some header ∧
  length header = 12%nat ∧
  unpack_III (py_slice (header ++ [x61; x62]) 0 HEADER_SIZE)
  = Some (258, 3, 65536) ∧
  py_slice (header ++ [x61; x62]) HEADER_SIZE (len (header ++ [x61; x62]))
  = [x61; x62].
Proof.
  split; [reflexivity|].
  apply (packet_wire_round_trip 258 3 65536). reflexivity.
Defined.

(** X2: [_process_packet] on data shorter than the header catches the
    [struct.error] of [unpack]: one [ERROR] record, no change of state,
    nothing raised.  On twelve bytes or more [unpack] succeeds, so no
    ingest of [check_socket] ever logs that record. *)
Theorem process_packet_struct_error s data :
  (len data < HEADER_SIZE →
   _process_packet s data
   = mkRun [Log ERROR (UnpackFailed (len data))] s None) ∧
  (HEADER_SIZE ≤ len data →
   is_Some (unpack_III (py_slice data 0 HEADER_SIZE))) ∧
  forallb (λ ev, negb (is_unpack_failed ev)) (events (ingest s data)) = true.
Proof.
  split; [|split].
  - intros Hshort. unfold _process_packet.
    destruct (unpack_III _) as [[[f p] t]|] eqn:Hu; [|done].
    apply unpack_III_Some in Hu as [Hlen _].
    pose proof (len_nonneg data).
    rewrite py_slice_prefix, length_take in Hlen by done.
    unfold len, HEADER_SIZE in *. lia.
  - intros Hlong. apply unpack_III_length.
    rewrite py_slice_prefix, length_take by done.
    unfold len, HEADER_SIZE in *. lia.
  - destruct (header_fields data) as [[[f p] t]|] eqn:Hfields.
    + rewrite (ingest_fields _ _ _ _ _ Hfields). cbn [before events].
      apply forallb_app_true. split; [by apply packet_log_forallb|].
      generalize (process_complete_frames_run
                    (store_packet s f p t (py_slice data HEADER_SIZE (len data)))).
      generalize (process_complete_frames
                    (store_packet s f p t (py_slice data HEADER_SIZE (len data)))).
      generalize (store_packet s f p t (py_slice data HEADER_SIZE (len data))).
      intros s0 r0 Hrun. induction Hrun; cbn [events before]; try done.
      by apply is_frame_complete_log.
    + by rewrite ingest_short.
Qed.

(** X3: every datagram of the frame loop, whatever the payloads, has at
    least the twelve bytes of a header and at most [MAX_UDP_SIZE] bytes: the
    receiver drops none of them as too small and [recvfrom] cuts none. *)
Theorem sent_datagrams_fit start payloads :
  Forall (λ d, HEADER_SIZE ≤ len d ≤ MAX_UDP_SIZE ∧
               take (Z.to_nat MAX_UDP_SIZE) d = d ∧
               is_Some (header_fields d))
    (datagrams (send_video_frames start payloads)).
Proof.
  apply Forall_forall. intros d Hd.
  apply send_video_frames_datagram
    in Hd as (n & data & i & total & _ & _ & Hf & _ & Hlen).
  split; [done|]. split; [|by rewrite Hf].
  apply take_ge. unfold len, MAX_UDP_SIZE in *. lia.
Qed.

(** X4: the packets of one frame, each once and in any order, leave the
    reassembler as it was set up, one frame further: the frame is emitted
    and no buffer and no packet count is left. *)
Theorem permuted_frame_releases_buffers frame_number chunks datagrams :
  0 ≤ frame_number < U32_LIMIT → 1 ≤ len chunks < U32_LIMIT →
  datagrams ≡ₚ frame_packets_of frame_number chunks →
  emitted (ingest_all (fresh_at frame_number) datagrams).1
  = [(frame_number, concat chunks)] ∧
  (ingest_all (fresh_at frame_number) datagrams).2
  = fresh_at (frame_number + 1).
Proof. intros Hf Ht Hperm. by apply permuted_set_releases. Qed.

Lemma permuted_frame_releases_buffers_witness :
  let p0 := header_of 7 0 3 ++ [x61; x62] in
  let p1 := header_of 7 1 3 ++ [x63] in
  let p2 := header_of 7 2 3 ++ [x64; x65] in
  emitted (ingest_all (fresh_at 7) [p2; p0; p1]).1
  = [(7, [x61; x62; x63; x64; x65])] ∧
  (ingest_all (fresh_at 7) [p2; p0; p1]).2 = fresh_at 8.
Proof.
  apply (permuted_frame_releases_buffers 7 [[x61; x62]; [x63]; [x64; x65]]).
  - vm_compute. split; [discriminate|reflexivity].
  - vm_compute. split; [discriminate|reflexivity].
  - refine (bool_decide_unpack _ _). vm_compute. exact I.
Defined.

(** X5: the frame loop of [send_video] on payloads that are not empty,
    read by one call of [check_socket] of a receiver just set up: every
    payload is handed to the consumer, unchanged, in the order sent, under
    the frame numbers 0, 1, ...; the queue is read to its end and no buffer
    is left. *)
Theorem stream_end_to_end payloads :
  len payloads ≤ U32_LIMIT → forallb sendable payloads = true →
  let sent := send_video payloads in
  let out := check_socket _setup_frame_buffers (datagrams sent) in
  failure sent = None ∧
  emitted (events out.1) = zip (seqZ 0 (len payloads)) payloads ∧
  state out.1 = fresh_at (len payloads) ∧
  out.2 = [].
Proof.
  intros Hlen Hall. cbv zeta. unfold send_video, _setup_frame_buffers.
  destruct (stream_ingested 0 payloads ltac:(lia) ltac:(lia) Hall)
    as (Hfail & He & Hs).
  destruct (stream_conforms 0 payloads) as [Hconf Hrecv].
  destruct (check_socket_conforming (stream_totals 0 payloads) (fresh_at 0)
              _ (fresh_conform _ 0) Hconf) as (-> & _ & _).
  rewrite Hrecv. cbn [fst snd events state]. rewrite He, Hs.
  split; [done|]. split; [done|]. split; [|done]. by rewrite Z.add_0_l.
Qed.

Lemma stream_end_to_end_witness :
  let payloads := [[x61; x62]; [x63]; [x64; x65; x66]] in
  let out := check_socket _setup_frame_buffers
               (datagrams (send_video payloads)) in
  failure (send_video payloads) = None ∧
  emitted (events out.1)
  = [(0, [x61; x62]); (1, [x63]); (2, [x64; x65; x66])] ∧
  state out.1 = fresh_at 3 ∧
  out.2 = [].
Proof.
  apply (stream_end_to_end [[x61; x62]; [x63]; [x64; x65; x66]]).
  - vm_compute. discriminate.
  - vm_compute. reflexivity.
Defined.

(** X6: an empty payload in the stream takes a frame number and sends
    nothing.  The receiver delivers the frames before it and then waits for
    that number for good: of the frames after it, whatever they are, none is
    ever handed to the consumer. *)
Theorem empty_payload_stalls_stream good rest :
  len good < U32_LIMIT → forallb sendable good = true →
  let sent := send_video (good ++ [] :: rest) in
  let out := check_socket _setup_frame_buffers (datagrams sent) in
  emitted (events out.1) = zip (seqZ 0 (len good)) good ∧
  current_frame (state out.1) = len good ∧
  out.2 = [].
Proof.
  intros Hlen Hall. cbv zeta. unfold send_video, _setup_frame_buffers.
  pose proof (len_nonneg good) as H0.
  destruct (stream_conforms 0 (good ++ [] :: rest)) as [Hconf Hrecv].
  destruct (check_socket_conforming (stream_totals 0 (good ++ [] :: rest))
              (fresh_at 0) _ (fresh_conform _ 0) Hconf) as (-> & _ & _).
  rewrite Hrecv. cbn [fst snd events state].
  destruct (send_video_frames_app 0 good ([] :: rest) Hall ltac:(lia)
              ltac:(lia)) as [-> _].
  cbn [datagrams]. rewrite ingest_all_app. cbn [fst snd].
  destruct (stream_ingested 0 good ltac:(lia) ltac:(lia) Hall)
    as (_ & He & Hs).
  rewrite emitted_app, He, Hs, !Z.add_0_l.
  assert (Hrest : datagrams (send_video_frames (len good) ([] :: rest))
                  = datagrams (send_video_frames (len good + 1) rest)).
  { cbn [send_video_frames].
    change (send_frame (len good) []) with (mkSent [] None). done. }
  rewrite Hrest.
  destruct (blocked_ingest_all (fresh_at (len good)) 0
              (datagrams (send_video_frames (len good + 1) rest)))
    as [-> ->].
  - done.
  - apply forallb_forall. intros d Hd%list_elem_of_In.
    apply send_video_frames_fields in Hd as (f & i & total & Hf & Hge & _).
    unfold withholds. rewrite Hf. simpl.
    by destruct (Z.eqb_spec f (len good)); [lia|].
  - by rewrite app_nil_r.
Qed.

Lemma empty_payload_stalls_stream_witness :
  let payloads := [[x61; x62]; []; [x64; x65; x66]; [x67]] in
  let out := check_socket _setup_frame_buffers
               (datagrams (send_video payloads)) in
  emitted (events out.1) = [(0, [x61; x62])] ∧
  current_frame (state out.1) = 1 ∧
  out.2 = [].
Proof.
  apply (empty_payload_stalls_stream [[x61; x62]] [[x64; x65; x66]; [x67]]);
    vm_compute; reflexivity.
Defined.

(** X7: [frame_buffers] and [frame_total_packets] keep the same keys over
    any sequence of ingests, so the branch of [process_complete_frames] for a
    buffered frame without a packet count is never taken: its [WARNING] is
    never logged. *)
Theorem buffers_and_totals_keep_same_keys s datagrams :
  same_keys s →
  same_keys (ingest_all s datagrams).2 ∧
  forallb (λ ev, negb (is_no_total_count ev)) (ingest_all s datagrams).1 = true.
Proof. apply ingest_all_same_keys. Qed.

Lemma buffers_and_totals_keep_same_keys_witness :
  let datagrams := [header_of 0 1 2 ++ [x61]; header_of 3 0 1 ++ [x62];
                    [x00]; header_of 0 0 2 ++ [x63]] in
  same_keys _setup_frame_buffers ∧
  same_keys (ingest_all _setup_frame_buffers datagrams).2 ∧
  forallb (λ ev, negb (is_no_total_count ev))
    (ingest_all _setup_frame_buffers datagrams).1 = true.
Proof.
  assert (Hinit : same_keys _setup_frame_buffers).
  { refine (bool_decide_unpack _ _). vm_compute. exact I. }
  split; [exact Hinit|].
  apply (buffers_and_totals_keep_same_keys _setup_frame_buffers _ Hinit).
Defined.

(** X8: when every datagram of the queue declares the packet count of its
    frame and an index below it, in any order, with losses and repetitions,
    reassembly never raises: one call of [check_socket] reads the whole
    queue, logs no error, and does what the ingests one after the other
    do. *)
Theorem conforming_traffic_never_raises totals s queue :
  buffers_conform totals s →
  forallb (conforms totals) queue = true →
  check_socket s queue
  = (mkRun (ingest_all s (received queue)).1
       (ingest_all s (received queue)).2 None, []) ∧
  forallb (λ ev, negb (is_check_socket_error ev))
    (ingest_all s (received queue)).1 = true ∧
  buffers_conform totals (ingest_all s (received queue)).2.
Proof. apply check_socket_conforming. Qed.

Lemma conforming_traffic_never_raises_witness :
  let totals := λ f : Z, 2 in
  let queue := [header_of 1 1 2 ++ [x61]; header_of 0 1 2 ++ [x62];
                header_of 0 1 2 ++ [x62]; header_of 0 0 2 ++ [x63]] in
  forallb (conforms totals) queue = true ∧
  check_socket _setup_frame_buffers queue
  = (mkRun (ingest_all _setup_frame_buffers (received queue)).1
       (ingest_all _setup_frame_buffers (received queue)).2 None, []) ∧
  forallb (λ ev, negb (is_check_socket_error ev))
    (ingest_all _setup_frame_buffers (received queue)).1 = true ∧
  buffers_conform totals (ingest_all _setup_frame_buffers (received queue)).2.
Proof.
  split; [vm_compute; reflexivity|].
  apply (conforming_traffic_never_raises (λ f : Z, 2) _setup_frame_buffers).
  - apply fresh_conform.
  - vm_compute. reflexivity.
Defined.

(** X9: with the head frame not ready, as after every ingest, a datagram of
    another frame, earlier or later, is stored and nothing else: no frame is
    emitted and the cursor stays. *)
Theorem off_head_packet_only_stored s data f p t :
  head_ready s = false → header_fields data = Some (f, p, t) →
  f ≠ current_frame s →
  state (ingest s data)
  = store_packet s f p t (py_slice data HEADER_SIZE (len data)) ∧
  emitted (events (ingest s data)) = [] ∧
  current_frame (state (ingest s data)) = current_frame s.
Proof.
  intros Hnot Hfields Hne.
  rewrite (ingest_fields _ _ _ _ _ Hfields).
  set (s1 := store_packet s f p t _).
  assert (Hnot1 : head_ready s1 = false).
  { unfold s1. by rewrite store_packet_off_head. }
  destruct (loop_run_not_ready s1 _ Hnot1 (process_complete_frames_run s1))
    as [He Hs].
  cbn [before events state]. rewrite Hs.
  by rewrite emitted_app, emitted_packet_log, He.
Qed.

Lemma off_head_packet_only_stored_witness :
  let s := store_packet (fresh_at 3) 3 0 2 [x61] in
  let data := header_of 5 0 1 ++ [x62] in
  head_ready s = false ∧ header_fields data = Some (5, 0, 1) ∧
  state (ingest s data) = store_packet s 5 0 1 [x62] ∧
  emitted (events (ingest s data)) = [] ∧
  current_frame (state (ingest s data)) = 3.
Proof.
  split; [vm_compute; reflexivity|]. split; [vm_compute; reflexivity|].
  apply (off_head_packet_only_stored
           (store_packet (fresh_at 3) 3 0 2 [x61])
           (header_of 5 0 1 ++ [x62]) 5 0 1).
  - vm_compute. reflexivity.
  - vm_compute. reflexivity.
  - vm_compute. discriminate.
Defined.

(** X10: a datagram whose ingest emitted nothing can come again: the
    second ingest leaves the state of the first and emits nothing. *)
Theorem duplicate_changes_nothing s data :
  emitted (events (ingest s data)) = [] →
  state (ingest (state (ingest s data)) data) = state (ingest s data) ∧
  emitted (events (ingest (state (ingest s data)) data)) = [].
Proof.
  intros Hsilent.
  destruct (header_fields data) as [[[f p] t]|] eqn:Hfields.
  - rewrite (ingest_fields s _ _ _ _ Hfields) in Hsilent |- *.
    cbn [before events state] in Hsilent |- *.
    rewrite emitted_app, emitted_packet_log in Hsilent. simpl in Hsilent.
    set (s1 := store_packet s f p t _) in *.
    destruct (loop_run_silent s1 _ (process_complete_frames_run s1) Hsilent)
      as [Hs Hnot].
    rewrite Hs, (ingest_fields s1 _ _ _ _ Hfields).
    unfold s1 at 1 3. rewrite store_packet_idem. fold s1.
    cbn [before events state]. rewrite Hs, emitted_app, emitted_packet_log.
    by rewrite Hsilent.
  - by rewrite !ingest_short.
Qed.

Lemma duplicate_changes_nothing_witness :
  let s := _setup_frame_buffers in
  let data := header_of 0 1 3 ++ [x61] in
  emitted (events (ingest s data)) = [] ∧
  state (ingest (state (ingest s data)) data) = state (ingest s data) ∧
  emitted (events (ingest (state (ingest s data)) data)) = [].
Proof.
  split; [vm_compute; reflexivity|].
  apply (duplicate_changes_nothing _setup_frame_buffers
           (header_of 0 1 3 ++ [x61])).
  vm_compute. reflexivity.
Defined.

(** X11: while a packet of the head frame is withheld nothing is evicted:
    every packet buffered before and every packet of every datagram ingested
    since is still buffered, under its frame and index. *)
Theorem stalled_head_evicts_nothing s i datagrams :
  blocked_on s i = true →
  forallb (withholds (current_frame s) i) datagrams = true →
  (∀ f k, (∃ pk, frame_buffers s !! f = Some pk ∧ is_Some (pk !! k)) →
          ∃ pk, frame_buffers (ingest_all s datagrams).2 !! f = Some pk ∧
                is_Some (pk !! k)) ∧
  (∀ d f p t, d ∈ datagrams → header_fields d = Some (f, p, t) →
              ∃ pk, frame_buffers (ingest_all s datagrams).2 !! f = Some pk ∧
                    is_Some (pk !! p)).
Proof.
  revert s. induction datagrams as [|data datagrams IH]; intros s Hb Hall.
  { split; [done|]. by intros d f p t ?%elem_of_nil. }
  cbn [forallb] in Hall. apply andb_true_iff in Hall as [Hdata Hall].
  rewrite (proj2 (ingest_all_cons s data datagrams)).
  destruct (blocked_ingest s i data Hb Hdata) as (_ & Hstate & Hb').
  assert (Hcur : current_frame (state (ingest s data)) = current_frame s).
  { rewrite Hstate. by destruct (header_fields data) as [[[??]?]|]. }
  destruct (IH (state (ingest s data)) Hb' ltac:(by rewrite Hcur))
    as [IHkeep IHnew].
  assert (Hkeep : ∀ f k,
    (∃ pk, frame_buffers s !! f = Some pk ∧ is_Some (pk !! k)) →
    ∃ pk, frame_buffers (state (ingest s data)) !! f = Some pk ∧
          is_Some (pk !! k)).
  { intros f k (pk & Hpk & Hk). rewrite Hstate.
    destruct (header_fields data) as [[[f' p'] t']|]; [|by eauto].
    unfold store_packet. simpl.
    destruct (decide (f = f')) as [->|Hne].
    - rewrite lookup_insert_eq, Hpk. simpl. eexists. split; [done|].
      apply lookup_insert_is_Some'. by right.
    - rewrite lookup_insert_ne by done. eauto. }
  split.
  - intros f k Hold. by apply IHkeep, Hkeep.
  - intros d f p t [->|Hd]%elem_of_cons Hfields; [|by eapply IHnew].
    apply IHkeep. rewrite Hstate, Hfields. unfold store_packet. simpl.
    rewrite lookup_insert_eq. eexists. split; [done|].
    apply lookup_insert_is_Some'. by left.
Qed.

Lemma stalled_head_evicts_nothing_witness :
  let datagrams := [header_of 1 0 1 ++ [x61]; header_of 9 0 1 ++ [x62];
                    header_of 0 0 2 ++ [x63]] in
  blocked_on _setup_frame_buffers 1 = true ∧
  forallb (withholds 0 1) datagrams = true ∧
  (∀ f k, (∃ pk, frame_buffers _setup_frame_buffers !! f = Some pk ∧
                 is_Some (pk !! k)) →
          ∃ pk, frame_buffers (ingest_all _setup_frame_buffers datagrams).2
                  !! f = Some pk ∧ is_Some (pk !! k)) ∧
  (∀ d f p t, d ∈ datagrams → header_fields d = Some (f, p, t) →
              ∃ pk, frame_buffers (ingest_all _setup_frame_buffers datagrams).2
                      !! f = Some pk ∧ is_Some (pk !! p)).
Proof.
  split; [vm_compute; reflexivity|]. split; [vm_compute; reflexivity|].
  apply (stalled_head_evicts_nothing _setup_frame_buffers 1);
    vm_compute; reflexivity.
Defined.

(** X12: one call of [check_socket] ingests a prefix of the queue, one
    datagram after the other, and returns the rest unread; the call itself
    never raises; and with a datagram pending it reads at least one. *)
Theorem check_socket_reads_a_prefix s queue :
  ∃ read,
    queue = read ++ (check_socket s queue).2 ∧
    ingest_all s (received read)
    = (events (check_socket s queue).1, state (check_socket s queue).1) ∧
    raised (check_socket s queue).1 = None ∧
    (length read = 0%nat ↔ length queue = 0%nat).
Proof.
  destruct (check_socket_ingested s queue) as (read & Hq & Hi & Hr & Hne).
  exists read. split; [done|]. split; [done|]. split; [done|].
  split.
  - intros Hz. destruct queue; [done|].
    destruct read; [|done]. by destruct Hne.
  - intros Hz. destruct queue; [|done]. by destruct read.
Qed.

(** X13: the calls of the timer lose nothing: with [n] datagrams pending,
    [n] calls of [check_socket], whichever of them end on an exception, have
    ingested all of them, in order, and left the queue empty. *)
Theorem timer_drains_queue s queue :
  timer_ticks (length queue) s queue
  = ((ingest_all s (received queue)).1, (ingest_all s (received queue)).2, []).
Proof.
  assert (Hgen : ∀ n s queue, (length queue ≤ n)%nat →
    timer_ticks n s queue
    = ((ingest_all s (received queue)).1,
       (ingest_all s (received queue)).2, [])).
  { clear. intros n. induction n as [|n IH]; intros s queue Hlen.
    - destruct queue; [done|simpl in Hlen; lia].
    - cbn [timer_ticks].
      destruct (check_socket_ingested s queue) as (read & Hq & Hi & _ & Hne).
      destruct (check_socket s queue) as [r rest]. cbn [fst snd] in *.
      assert (Hrest : (length rest ≤ n)%nat).
      { pose proof (f_equal length Hq) as Hl. rewrite length_app in Hl.
        destruct queue as [|d queue]; simpl in *; [lia|].
        destruct read; [by destruct Hne|]. simpl in *. lia. }
      rewrite (IH _ _ Hrest). rewrite Hq at 1 2.
      unfold received in *. rewrite fmap_app, ingest_all_app, Hi.
      by cbn [fst snd]. }
  by apply Hgen.
Qed.

(** X14: the two wire formats do not mix.  A datagram of the fragmenting
    sender starts with its frame number, not with the JPEG marker: below
    frame number [0xFFD80000] the receiver of new_receiver.py, which listens
    on the same port, rejects every one of them. *)
Theorem fragments_rejected_by_simple_receiver frame_number data :
  frame_number < 4292345856 →
  Forall (λ d, (Jpeg.simple_validate_jpeg_data d).1 = false)
    (datagrams (send_frame frame_number data)).
Proof.
  intros Hfn. apply Forall_forall. intros d Hd.
  apply send_frame_datagram in Hd as (i & total & Hf & _ & _ & ->).
  unfold Jpeg.simple_validate_jpeg_data.
  destruct (len _ <? Jpeg.MIN_JPEG_SIZE); [done|].
  destruct (Jpeg.startswith _ Jpeg.JPEG_HEADER) eqn:Hstart; [|done].
  exfalso. unfold Jpeg.startswith in Hstart.
  apply bool_decide_eq_true in Hstart.
  cbn [header_of be32 app length Jpeg.JPEG_HEADER take] in Hstart.
  injection Hstart as H1 H2.
  apply (f_equal Z_of_byte) in H1, H2. rewrite Z_of_byte_of_Z in H1, H2.
  change (Z_of_byte xff) with 255 in H1.
  change (Z_of_byte xd8) with 216 in H2.
  unfold U32_LIMIT in Hf. clear -Hfn Hf H1 H2.
  Z.to_euclidean_division_equations. lia.
Qed.

Lemma fragments_rejected_by_simple_receiver_witness :
  Forall (λ d, (Jpeg.simple_validate_jpeg_data d).1 = false)
    (datagrams (send_frame 3 (replicate 3000 xff))).
Proof.
  apply (fragments_rejected_by_simple_receiver 3 (replicate 3000 xff)).
  reflexivity.
Defined.

(** X15: the validation of new_receiver.py is the stricter one: what it
    accepts has at least [MIN_JPEG_SIZE] bytes, starts with the JPEG header
    and ends with the footer, and is accepted by the validation of
    receiver.py as well. *)
Theorem simple_validation_is_stricter data :
  (Jpeg.simple_validate_jpeg_data data).1 = true →
  (Jpeg._validate_jpeg_data data).1 = true ∧
  Jpeg.MIN_JPEG_SIZE ≤ len data ∧
  take 2 data = Jpeg.JPEG_HEADER ∧
  drop (length data - 2)%nat data = Jpeg.JPEG_FOOTER.
Proof.
  unfold Jpeg.simple_validate_jpeg_data, Jpeg._validate_jpeg_data.
  destruct (Z.ltb_spec (len data) Jpeg.MIN_JPEG_SIZE); [done|].
  destruct (Jpeg.startswith data Jpeg.JPEG_HEADER) eqn:Hs; [|done].
  destruct (Jpeg.endswith data Jpeg.JPEG_FOOTER) eqn:He; [|done].
  intros _. simpl.
  apply bool_decide_eq_true in Hs, He. done.
Qed.

Lemma simple_validation_is_stricter_witness :
  let data := [xff; xd8] ++ replicate 100 x00 ++ [xff; xd9] in
  (Jpeg.simple_validate_jpeg_data data).1 = true ∧
  (Jpeg._validate_jpeg_data data).1 = true ∧
  Jpeg.MIN_JPEG_SIZE ≤ len data ∧
  take 2 data = Jpeg.JPEG_HEADER ∧
  drop (length data - 2)%nat data = Jpeg.JPEG_FOOTER.
Proof.
  split; [vm_compute; reflexivity|].
  apply (simple_validation_is_stricter
           ([xff; xd8] ++ replicate 100 x00 ++ [xff; xd9])).
  vm_compute. reflexivity.
Defined.

(** X16: frame numbers are not wrapped.  Once [frame_number] has reached
    [2^32], [pack] raises [struct.error] on the first packet of the next
    payload that is not empty: that frame and all that follow are not
    sent. *)
Theorem frame_number_overflow_stops_sender start data rest :
  U32_LIMIT ≤ start → 1 ≤ len data →
  send_video_frames start (data :: rest) = mkSent [] (Some StructError).
Proof.
  intros Hstart Hpos. cbn [send_video_frames].
  assert (Hroom : HEADER_SIZE < MAX_UDP_SIZE) by done.
  assert (Hframe : send_frame start data = mkSent [] (Some StructError)).
  { unfold send_frame, split.
    rewrite (total_packets_of_Some _ _ Hroom).
    set (total := _ / _).
    pose proof (total_packets_of_Some _ _ Hroom data) as Htotal.
    fold total in Htotal.
    pose proof (total_packets_nonneg _ _ Hroom _ _ Htotal) as [H0 Hnil].
    assert (H1 : 0 < total).
    { destruct (decide (total = 0)) as [Hz|]; [|lia].
      apply Hnil in Hz. subst data. unfold len in Hpos. simpl in Hpos. lia. }
    unfold range. rewrite seqZ_cons by done.
    apply send_loop_struct_error. lia. }
  by rewrite Hframe.
Qed.

Lemma frame_number_overflow_stops_sender_witness :
  send_video_frames 4294967296 [[x61]; [x62; x63]]
  = mkSent [] (Some StructError).
Proof.
  apply (frame_number_overflow_stops_sender 4294967296 [x61] [[x62; x63]]);
    vm_compute; discriminate.
Defined.

(** X17: nor is the cursor wrapped.  A receiver whose cursor has passed
    the last frame number a header can carry, with that frame not buffered,
    never hands a frame to the consumer again, whatever arrives. *)
Theorem cursor_past_last_frame_number_emits_nothing cursor datagrams :
  U32_LIMIT ≤ cursor →
  emitted (ingest_all (fresh_at cursor) datagrams).1 = [] ∧
  current_frame (ingest_all (fresh_at cursor) datagrams).2 = cursor.
Proof.
  intros Hcur.
  apply (blocked_ingest_all (fresh_at cursor) 0); [done|].
  apply forallb_forall. intros d _. unfold withholds.
  destruct (header_fields d) as [[[f p] t]|] eqn:Hf; [|done].
  apply header_fields_u32 in Hf as (_ & Hfu & _). simpl.
  by destruct (Z.eqb_spec f cursor); [lia|].
Qed.

Lemma cursor_past_last_frame_number_emits_nothing_witness :
  let datagrams := [header_of 0 0 1 ++ [x61];
                    header_of 4294967295 0 1 ++ [x62]] in
  emitted (ingest_all (fresh_at 4294967296) datagrams).1 = [] ∧
  current_frame (ingest_all (fresh_at 4294967296) datagrams).2 = 4294967296.
Proof.
  apply (cursor_past_last_frame_number_emits_nothing 4294967296).
  vm_compute. discriminate.
Defined.
End Extras.
